(** * The resilient fetch helper of the cravii client

    A shallow embedding of [fetchWithRetry] as it is written in
    [src/app/utils/fetchWithRetry.ts], together with the screen-local
    copies of [src/app/recipe-details.tsx] and [src/app/custom-orders.tsx],
    and the properties of the retry policy, the header construction and the
    session-cookie handling.

    Modelling conventions.
    - JavaScript numbers that the code only uses as integers ([retries],
      [initialDelay], [timeout], HTTP statuses, delays) are [Z]; the loop
      counter [i], which starts at 0 and is incremented, is [nat].
    - A headers object (a JS object used as a map) is a [gmap string string];
      object spread is map union with the later operand winning, and an
      assignment [o[k] = v] is [<[k:=v]> o].
    - [AsyncStorage] is a [gmap string string]; [getItem] answers [null]
      ([None]) for a missing key.
    - The platform is a parameter: the transport [fetch] (a function of the
      attempt number and of the request, which either resolves to a response
      or rejects with an error; an abort caused by the timeout timer is one
      such rejection), the global [__DEV__] flag and [JSON.parse].
    - Every effect is recorded in a trace of events, in program order. *)

From stdpp Require Import base strings gmap list pretty.
From Stdlib Require Import ZArith Lia.

Local Open Scope Z_scope.

(** ** Data *)

Abbreviation Headers := (gmap string string).
Abbreviation Storage := (gmap string string).

(** A thrown value: an [Error] object, of which the code reads [message]. *)
Record Error := mkError { message : string }.

(** [RequestInit] as the call sites use it: [method], [headers], [body]. *)
Record RequestInit := mkRequestInit {
  method : option string;
  headers : Headers;
  body : option string
}.

(** The second argument of the platform's [fetch], with the url: the caller's
    options, the headers built for the attempt, [credentials] and the abort
    deadline armed on the attempt's [AbortController] ([None] in the copies
    that have no timeout). *)
Record Request := mkRequest {
  req_url : string;
  req_method : option string;
  req_body : option string;
  req_headers : Headers;
  req_credentials : string;
  req_abort_after : option Z
}.

(** A response: [status], the text that [text()] resolves to, and the
    response headers keyed by lower-case name (as [Headers.get] looks them
    up). *)
Record Response := mkResponse {
  status : Z;
  text : string;
  resp_headers : Headers
}.

(** [response.ok]: the status is in the range 200-299. *)
Definition ok (r : Response) : bool :=
  (200 <=? status r) && (status r <=? 299).

Inductive FetchOutcome :=
| Resolves (r : Response)
| Rejects (e : Error).

Inductive ParseOutcome :=
| Parsed
| SyntaxError (e : Error).

(** The platform the helper runs on. *)
Record Platform := mkPlatform {
  DEV : bool;
  JSON_parse : string → ParseOutcome;
  fetch : nat → Request → FetchOutcome
}.

(** JavaScript truthiness of a [string | null | undefined]. *)
Definition truthy (s : option string) : bool :=
  match s with
  | Some s => negb (String.eqb s "")
  | None => false
  end.

(** ** Effects *)

Inductive LogLevel := LogError | LogInfo.

Inductive Event :=
| EGetItem (key : string) (result : option string)
| ESetItem (key value : string)
| EFetch (i : nat) (req : Request)
| EWait (ms : Z)
| ELog (level : LogLevel) (msg : string).

(** How a block of statements completes. *)
Inductive Completion (A : Type) :=
| Normal (a : A)
| Continue
| Return (r : Response)
| Throw (e : Error).
Arguments Normal {A} a.
Arguments Continue {A}.
Arguments Return {A} r.
Arguments Throw {A} e.

(** A computation reads and writes the storage, appends to the trace and
    completes normally or abruptly. *)
Definition M (A : Type) : Type := Storage → list Event * Storage * Completion A.

Global Instance M_ret : MRet M := λ A a st, ([], st, Normal a).

Global Instance M_bind : MBind M := λ A B f m st,
  match m st with
  | (tr, st', Normal a) =>
      match f a st' with
      | (tr', st'', c) => (tr ++ tr', st'', c)
      end
  | (tr, st', Continue) => (tr, st', Continue)
  | (tr, st', Return r) => (tr, st', Return r)
  | (tr, st', Throw e) => (tr, st', Throw e)
  end.

Definition emit (e : Event) : M () := λ st, ([e], st, Normal ()).
Definition throw {A} (e : Error) : M A := λ st, ([], st, Throw e).
Definition continue {A} : M A := λ st, ([], st, Continue).
Definition return_ {A} (r : Response) : M A := λ st, ([], st, Return r).
Definition when (b : bool) (m : M ()) : M () := if b then m else mret ().

(** [try { body } catch (error) { handler }] *)
Definition try_catch {A} (body : M A) (handler : Error → M A) : M A := λ st,
  match body st with
  | (tr, st', Throw e) =>
      match handler e st' with
      | (tr', st'', c) => (tr ++ tr', st'', c)
      end
  | r => r
  end.

Definition getItem (key : string) : M (option string) := λ st,
  ([EGetItem key (st !! key)], st, Normal (st !! key)).
Definition setItem (key value : string) : M () := λ st,
  ([ESetItem key value], <[key:=value]> st, Normal ()).
Definition wait (ms : Z) : M () := emit (EWait ms).
Definition console_error (msg : string) : M () := emit (ELog LogError msg).
Definition console_log (msg : string) : M () := emit (ELog LogInfo msg).

(** What the caller of the [async] function observes. *)
Inductive Outcome :=
| Fulfilled (r : Response)
| Rejected (e : Error).

Definition Run : Type := list Event * Storage * Outcome.
Definition trace (r : Run) : list Event := r.1.1.
Definition storage (r : Run) : Storage := r.1.2.
Definition outcome (r : Run) : Outcome := r.2.

(** ** What all copies share *)

Definition userAgents : list string := [
  "Mozilla/5.0 (Windows NT 10.0; Win64; x64) AppleWebKit/537.36 (KHTML, like Gecko) Chrome/117.0.0.0 Safari/537.36";
  "Mozilla/5.0 (Macintosh; Intel Mac OS X 10_15_7) AppleWebKit/605.1.15 (KHTML, like Gecko) Version/16.0 Safari/605.1.15";
  "Mozilla/5.0 (iPhone; CPU iPhone OS 16_0 like Mac OS X) AppleWebKit/605.1.15 (KHTML, like Gecko) Version/16.0 Mobile/15E148 Safari/604.1"
].

(** [userAgents[i % userAgents.length]]; an index out of range would read
    [undefined]. *)
Definition currentUserAgent (i : nat) : string :=
  default "undefined" (userAgents !! (i `mod` length userAgents)%nat).

(** The object literal [defaultHeaders]: five computed entries, then the
    spread of [options.headers], whose entries replace computed ones. *)
Definition computedHeaders (i : nat) : Headers :=
  <["Connection" := "keep-alive"]>
  (<["Accept-Encoding" := "gzip, deflate, br"]>
  (<["User-Agent" := currentUserAgent i]>
  (<["Content-Type" := "application/json"]>
  (<["Accept" := "application/json"]> ∅)))).

Definition defaultHeaders (options : RequestInit) (i : nat) : Headers :=
  headers options ∪ computedHeaders i.

(** [if (sessionCookie && i >= 2) defaultHeaders['Cookie'] = sessionCookie] *)
Definition withCookie (sessionCookie : option string) (i : nat)
    (h : Headers) : Headers :=
  match sessionCookie with
  | Some c => if truthy sessionCookie && (2 <=? Z.of_nat i) then <["Cookie" := c]> h else h
  | None => h
  end.

Definition attemptHeaders (options : RequestInit) (sessionCookie : option string)
    (i : nat) : Headers :=
  withCookie sessionCookie i (defaultHeaders options i).

(** [options.body ? JSON.parse(options.body as string) : null], evaluated for
    the diagnostic object; only its completion matters. *)
Definition payload (P : Platform) (options : RequestInit) : M () := λ st,
  if truthy (body options) then
    match JSON_parse P (default "" (body options)) with
    | Parsed => ([], st, Normal ())
    | SyntaxError e => ([], st, Throw e)
    end
  else ([], st, Normal ()).

Definition callFetch (P : Platform) (i : nat) (req : Request) : M Response := λ st,
  match fetch P i req with
  | Resolves r => ([EFetch i req], st, Normal r)
  | Rejects e => ([EFetch i req], st, Throw e)
  end.

(** [if (setCookie) await AsyncStorage.setItem('sessionCookie', setCookie)] *)
Definition storeCookie (setCookie : option string) : M () :=
  match setCookie with
  | Some c => if truthy setCookie then setItem "sessionCookie" c else mret ()
  | None => mret ()
  end.

(** The [for] loop around an attempt: [left] iterations remain, the next
    one has index [i]; [last] is the statement after the loop. *)
Fixpoint for_loop (attempt : nat → M ()) (last : Error) (left i : nat)
    (st : Storage) : Run :=
  match left with
  | O => ([], st, Rejected last)
  | S left' =>
      match attempt i st with
      | (tr, st', Return r) => (tr, st', Fulfilled r)
      | (tr, st', Throw e) => (tr, st', Rejected e)
      | (tr, st', _) =>
          match for_loop attempt last left' (S i) st' with
          | (tr', st'', o) => (tr ++ tr', st'', o)
          end
      end
  end.

(** ** [src/app/utils/fetchWithRetry.ts] *)

Module Utils.
Section fetchWithRetry.
Context (P : Platform).
Context (url : string) (options : RequestInit).
Context (retries initialDelay timeout : Z).

(** The body of the [for] loop at index [i]. *)
Definition attempt (i : nat) : M () :=
  let currentUserAgent := currentUserAgent i in
  sessionCookie ← getItem "sessionCookie";
  let defaultHeaders := attemptHeaders options sessionCookie i in
  try_catch
    (response ← callFetch P i
       {| req_url := url;
          req_method := method options;
          req_body := body options;
          req_headers := defaultHeaders;
          req_credentials := "include";
          req_abort_after := Some timeout |};
     (if negb (ok response) then
        let errorText := text response in
        when (DEV P)
          (payload P options;;
           console_error
             ("Fetch attempt " +:+ pretty (Z.of_nat i + 1) +:+ " of " +:+ pretty retries
              +:+ " failed for " +:+ url +:+ ": [Error: HTTP "
              +:+ pretty (status response) +:+ "] - " +:+ errorText));;
        if (status response =? 403) && (Z.of_nat i <? retries - 1) then
          let delay := initialDelay * 2 ^ Z.of_nat i in
          when (DEV P)
            (console_log
               ("Waiting " +:+ pretty delay +:+ "ms before retrying with User-Agent: "
                +:+ currentUserAgent +:+ "..."));;
          wait delay;;
          continue
        else
          throw (mkError ("HTTP " +:+ pretty (status response) +:+ " - " +:+ errorText))
      else mret ());;
     when (DEV P)
       (console_log
          ("Fetch succeeded for " +:+ url +:+ " on attempt " +:+ pretty (Z.of_nat i + 1)));;
     let setCookie := resp_headers response !! "set-cookie" in
     storeCookie setCookie;;
     return_ response)
    (λ error,
       when (DEV P)
         (console_error
            ("Fetch attempt " +:+ pretty (Z.of_nat i + 1) +:+ " of " +:+ pretty retries
             +:+ " failed for " +:+ url +:+ ":"));;
       if Z.of_nat i <? retries - 1 then
         let delay := initialDelay * 2 ^ Z.of_nat i in
         when (DEV P)
           (console_log ("Waiting " +:+ pretty delay +:+ "ms before retrying..."));;
         wait delay
       else
         throw (mkError ("Fetch failed after " +:+ pretty retries +:+ " attempts: "
                         +:+ message error))).

(** [for (let i = 0; i < retries; i++) { ... }] runs its body for
    [i = 0, 1, ...] as long as [i < retries], that is [Z.to_nat retries]
    times unless the body returns or throws; then comes the final
    [throw]. *)
Definition fetchWithRetry (st : Storage) : Run :=
  for_loop attempt
    (mkError ("Fetch failed after " +:+ pretty retries +:+ " attempts"))
    (Z.to_nat retries) 0 st.

End fetchWithRetry.
End Utils.

(** ** The copy in [src/app/recipe-details.tsx]

  No timeout, the logging is not guarded by [__DEV__], and the [catch]
  block re-throws the error it caught on the last attempt. *)

Module RecipeDetails.
Section fetchWithRetry.
Context (P : Platform).
Context (url : string) (options : RequestInit).
Context (retries initialDelay : Z).

Definition attempt (i : nat) : M () :=
  let currentUserAgent := currentUserAgent i in
  sessionCookie ← getItem "sessionCookie";
  let defaultHeaders := attemptHeaders options sessionCookie i in
  try_catch
    (response ← callFetch P i
       {| req_url := url;
          req_method := method options;
          req_body := body options;
          req_headers := defaultHeaders;
          req_credentials := "include";
          req_abort_after := None |};
     (if negb (ok response) then
        let errorText := text response in
        payload P options;;
        console_error
          ("Fetch attempt " +:+ pretty (Z.of_nat i + 1) +:+ " of " +:+ pretty retries
           +:+ " failed for " +:+ url +:+ ": [Error: HTTP "
           +:+ pretty (status response) +:+ "] - " +:+ errorText);;
        if (status response =? 403) && (Z.of_nat i <? retries - 1) then
          let delay := initialDelay * 2 ^ Z.of_nat i in
          console_log
            ("Waiting " +:+ pretty delay +:+ "ms before retrying with User-Agent: "
             +:+ currentUserAgent +:+ "...");;
          wait delay;;
          continue
        else
          throw (mkError ("HTTP " +:+ pretty (status response) +:+ " - " +:+ errorText))
      else mret ());;
     console_log
       ("Fetch succeeded for " +:+ url +:+ " on attempt " +:+ pretty (Z.of_nat i + 1));;
     let setCookie := resp_headers response !! "set-cookie" in
     storeCookie setCookie;;
     return_ response)
    (λ error,
       console_error
         ("Fetch attempt " +:+ pretty (Z.of_nat i + 1) +:+ " of " +:+ pretty retries
          +:+ " failed for " +:+ url +:+ ":");;
       if Z.of_nat i <? retries - 1 then
         let delay := initialDelay * 2 ^ Z.of_nat i in
         console_log ("Waiting " +:+ pretty delay +:+ "ms before retrying...");;
         wait delay
       else
         throw error).

Definition fetchWithRetry (st : Storage) : Run :=
  for_loop attempt
    (mkError ("Fetch failed after " +:+ pretty retries +:+ " attempts"))
    (Z.to_nat retries) 0 st.

End fetchWithRetry.
End RecipeDetails.

(** ** The copy in [src/app/custom-orders.tsx]

  No diagnostic object and no separate 403 branch: every response that is
  not ok throws inside the [try]. *)

Module CustomOrders.
Section fetchWithRetry.
Context (P : Platform).
Context (url : string) (options : RequestInit).
Context (retries initialDelay : Z).

Definition attempt (i : nat) : M () :=
  sessionCookie ← getItem "sessionCookie";
  let defaultHeaders := attemptHeaders options sessionCookie i in
  try_catch
    (response ← callFetch P i
       {| req_url := url;
          req_method := method options;
          req_body := body options;
          req_headers := defaultHeaders;
          req_credentials := "include";
          req_abort_after := None |};
     (if negb (ok response) then
        let errorText := text response in
        throw (mkError ("HTTP " +:+ pretty (status response) +:+ " - " +:+ errorText))
      else mret ());;
     let setCookie := resp_headers response !! "set-cookie" in
     storeCookie setCookie;;
     return_ response)
    (λ error,
       console_log
         ("Fetch attempt " +:+ pretty (Z.of_nat i + 1) +:+ " failed for " +:+ url +:+ ":");;
       if Z.of_nat i <? retries - 1 then
         let delay := initialDelay * 2 ^ Z.of_nat i in
         wait delay
       else
         throw error).

Definition fetchWithRetry (st : Storage) : Run :=
  for_loop attempt
    (mkError ("Fetch failed after " +:+ pretty retries +:+ " attempts"))
    (Z.to_nat retries) 0 st.

End fetchWithRetry.
End CustomOrders.

(** ** Reading a trace *)

Definition is_log (e : Event) : bool :=
  match e with ELog _ _ => true | _ => false end.

(** The trace without its log entries. *)
Definition effects (tr : list Event) : list Event :=
  omap (λ e, if is_log e then None else Some e) tr.

(** The transport calls, in order: attempt index and request. *)
Definition requests (tr : list Event) : list (nat * Request) :=
  omap (λ e, match e with EFetch i req => Some (i, req) | _ => None end) tr.

(** The storage reads and writes, in order. *)
Definition reads (tr : list Event) : list (string * option string) :=
  omap (λ e, match e with EGetItem k v => Some (k, v) | _ => None end) tr.
Definition writes (tr : list Event) : list (string * string) :=
  omap (λ e, match e with ESetItem k v => Some (k, v) | _ => None end) tr.

(** Transport calls ([inl i]: the call of attempt [i]) and waits ([inr ms]),
    in order. *)
Definition timeline (tr : list Event) : list (nat + Z) :=
  omap (λ e, match e with
             | EFetch i _ => Some (inl i)
             | EWait ms => Some (inr ms)
             | _ => None
             end) tr.

(** The timeline of [k] attempts in the words of the specification: nothing
    is waited before attempt 0, [initialDelay * 2^(i-1)] is waited before
    attempt [i >= 1], and nothing follows the last attempt. *)
Definition schedule (initialDelay : Z) (k : nat) : list (nat + Z) :=
  flat_map (λ i : nat, match i with
                       | O => [inl O]
                       | S j => [inr (initialDelay * 2 ^ (Z.of_nat i - 1)); inl i]
                       end) (seq 0 k).

(** The same timeline counted from attempt [i], each wait written after the
    attempt that failed. *)
Fixpoint schedule_from (initialDelay : Z) (i k : nat) : list (nat + Z) :=
  match k with
  | O => []
  | S k' =>
      inl i :: match k' with
               | O => []
               | S _ => inr (initialDelay * 2 ^ Z.of_nat i)
                        :: schedule_from initialDelay (S i) k'
               end
  end.

(** ** The retry loop in summary

    What one attempt and the whole loop do, log entries left out, in terms
    of: the request an attempt sends, the error a response that is not ok
    leaves the attempt with, and the error the last attempt raises. Each copy
    of the helper is proved below to behave as its summary. *)

Definition settle {A} (c : Completion A) : option Outcome :=
  match c with
  | Return r => Some (Fulfilled r)
  | Throw e => Some (Rejected e)
  | _ => None
  end.

Definition cookieWrites (r : Response) : list Event :=
  if truthy (resp_headers r !! "set-cookie")
  then [ESetItem "sessionCookie" (default "" (resp_headers r !! "set-cookie"))]
  else [].

Definition cookieStored (r : Response) (st : Storage) : Storage :=
  if truthy (resp_headers r !! "set-cookie")
  then <["sessionCookie" := default "" (resp_headers r !! "set-cookie")]> st
  else st.

Section summary.
Context (P : Platform).
Context (request : nat → option string → Request).
Context (failure : Response → Error) (final : Error → Error).
Context (retries initialDelay : Z) (last : Error).

(** The error attempt [i] fails with, if it fails. *)
Definition attempt_error (i : nat) (st : Storage) : option Error :=
  match fetch P i (request i (st !! "sessionCookie")) with
  | Resolves r => if ok r then None else Some (failure r)
  | Rejects e => Some e
  end.

Definition attempt_summary (i : nat) (st : Storage)
    : list Event * Storage * option Outcome :=
  let sessionCookie := st !! "sessionCookie" in
  let req := request i sessionCookie in
  let called := [EGetItem "sessionCookie" sessionCookie; EFetch i req] in
  let failed (e : Error) :=
    if Z.of_nat i <? retries - 1
    then (called ++ [EWait (initialDelay * 2 ^ Z.of_nat i)], st, None)
    else (called, st, Some (Rejected (final e))) in
  match fetch P i req with
  | Resolves r =>
      if ok r
      then (called ++ cookieWrites r, cookieStored r st, Some (Fulfilled r))
      else failed (failure r)
  | Rejects e => failed e
  end.

Fixpoint run_summary (left i : nat) (st : Storage) : Run :=
  match left with
  | O => ([], st, Rejected last)
  | S left' =>
      match attempt_summary i st with
      | (tr, st', Some o) => (tr, st', o)
      | (tr, st', None) =>
          match run_summary left' (S i) st' with
          | (tr', st'', o) => (tr ++ tr', st'', o)
          end
      end
  end.

(** The shape of a run that starts at attempt [i] on storage [st] and makes
    [S m] attempts: the first [m] fail and are each followed by their
    backoff wait; the last one either succeeds, and its response is returned
    after its cookie is stored, or fails with no iteration left, and the
    error is raised. The storage is not written before that. *)
Record shape (left i m : nat) (st : Storage) (run : Run) : Prop := {
  shape_bound : (S m ≤ left)%nat;
  shape_requests :
    requests (trace run)
    = (λ j, (j, request j (st !! "sessionCookie"))) <$> seq i (S m);
  shape_reads :
    reads (trace run) = replicate (S m) ("sessionCookie", st !! "sessionCookie");
  shape_timeline :
    timeline (trace run) = schedule_from initialDelay i (S m);
  shape_failed :
    ∀ j, (i ≤ j < i + m)%nat → is_Some (attempt_error j st);
  shape_last :
    match fetch P (i + m) (request (i + m) (st !! "sessionCookie")) with
    | Resolves r =>
        if ok r then
          outcome run = Fulfilled r ∧
          storage run = cookieStored r st ∧
          writes (trace run) = writes (cookieWrites r)
        else
          S m = left ∧ outcome run = Rejected (final (failure r)) ∧
          storage run = st ∧ writes (trace run) = []
    | Rejects e =>
        S m = left ∧ outcome run = Rejected (final e) ∧
        storage run = st ∧ writes (trace run) = []
    end
}.
End summary.

(** The diagnostic object's [JSON.parse], when it throws. *)
Definition payloadError (P : Platform) (options : RequestInit) : option Error :=
  if truthy (body options) then
    match JSON_parse P (default "" (body options)) with
    | Parsed => None
    | SyntaxError e => Some e
    end
  else None.

(** [new Error(`HTTP ${response.status} - ${errorText}`)] *)
Definition httpError (r : Response) : Error :=
  mkError ("HTTP " +:+ pretty (status r) +:+ " - " +:+ text r).

Definition request (url : string) (options : RequestInit) (abort_after : option Z)
    (i : nat) (sessionCookie : option string) : Request :=
  {| req_url := url;
     req_method := method options;
     req_body := body options;
     req_headers := attemptHeaders options sessionCookie i;
     req_credentials := "include";
     req_abort_after := abort_after |}.

(** The error a response that is not ok leaves an attempt of
    [utils/fetchWithRetry.ts] with: the [HTTP ...] error, unless building
    the log entry threw first. *)
Definition utils_failure (P : Platform) (options : RequestInit) (r : Response) : Error :=
  default (httpError r) (if DEV P then payloadError P options else None).

(** [new Error(`Fetch failed after ${retries} attempts: ${error.message}`)] *)
Definition exhausted (retries : Z) (error : Error) : Error :=
  mkError ("Fetch failed after " +:+ pretty retries +:+ " attempts: " +:+ message error).

(** [new Error(`Fetch failed after ${retries} attempts`)] *)
Definition gave_up (retries : Z) : Error :=
  mkError ("Fetch failed after " +:+ pretty retries +:+ " attempts").

Definition recipe_failure (P : Platform) (options : RequestInit) (r : Response) : Error :=
  default (httpError r) (payloadError P options).

(** The same platform in a production build: [__DEV__] is false. *)
Definition without_logging (P : Platform) : Platform :=
  {| DEV := false; JSON_parse := JSON_parse P; fetch := fetch P |}.

(** ** Scenarios

    Concrete platforms and calls on which the statements below are run. *)

(** A stand-in for [JSON.parse] on the two kinds of body the scenarios use:
    it accepts a text that opens an object or an array, as the
    [JSON.stringify(...)] bodies of the call sites do, and throws on any
    other text, as [JSON.parse] does on a form-encoded body. *)
Definition JSON_parse_stub (s : string) : ParseOutcome :=
  if String.prefix "{" s || String.prefix "[" s
  then Parsed
  else SyntaxError (mkError "JSON Parse error: Unexpected token").

Definition recipes_url : string := "https://cravii.ng/cravii/api/get_recipes.php".

Definition get : RequestInit :=
  {| method := Some "GET"; headers := ∅; body := None |}.

(** A [POST] whose body is form-encoded, not JSON text. *)
Definition post_form : RequestInit :=
  {| method := Some "POST";
     headers := {["Content-Type" := "application/x-www-form-urlencoded"]};
     body := Some "id=7" |}.

(** A [GET] on which the caller sets its own [Cookie] header. *)
Definition get_with_cookie : RequestInit :=
  {| method := Some "GET"; headers := {["Cookie" := "mine=1"]}; body := None |}.

(** A [GET] on which the caller sets its own [User-Agent] header. *)
Definition get_with_user_agent : RequestInit :=
  {| method := Some "GET"; headers := {["User-Agent" := "CraviiApp/1.0"]};
     body := None |}.

(** Every transport call rejects. *)
Definition network_down (dev : bool) : Platform :=
  {| DEV := dev;
     JSON_parse := JSON_parse_stub;
     fetch := λ _ _, Rejects (mkError "Network request failed") |}.

(** Every transport call is answered 500. *)
Definition server_down (dev : bool) : Platform :=
  {| DEV := dev;
     JSON_parse := JSON_parse_stub;
     fetch := λ _ _, Resolves (mkResponse 500 "Server down" ∅) |}.

(** The first [k] calls are answered 403 with a [Set-Cookie] header, the
    following ones 200 without one. *)
Definition forbidden_first (k : nat) : Platform :=
  {| DEV := false;
     JSON_parse := JSON_parse_stub;
     fetch := λ i _,
       if (i <? k)%nat
       then Resolves (mkResponse 403 "Forbidden" {["set-cookie" := "sid=blocked"]})
       else Resolves (mkResponse 200 "{}" ∅) |}.

(** Every call is answered 200 with [Set-Cookie: sid=xyz]. *)
Definition sets_cookie : Platform :=
  {| DEV := false;
     JSON_parse := JSON_parse_stub;
     fetch := λ _ _, Resolves (mkResponse 200 "{}" {["set-cookie" := "sid=xyz"]}) |}.

(** * The other copies of the helper and what surrounds it *)

(** ** The copy in [src/app/orders.tsx] (and [src/app/checkout.tsx], second
    screen)

    The copy of [recipe-details.tsx] with [console.log] where that one has
    [console.error] for a failed attempt. *)

Module Orders.
Section fetchWithRetry.
Context (P : Platform).
Context (url : string) (options : RequestInit).
Context (retries initialDelay : Z).

Definition attempt (i : nat) : M () :=
  let currentUserAgent := currentUserAgent i in
  sessionCookie ← getItem "sessionCookie";
  let defaultHeaders := attemptHeaders options sessionCookie i in
  try_catch
    (response ← callFetch P i
       {| req_url := url;
          req_method := method options;
          req_body := body options;
          req_headers := defaultHeaders;
          req_credentials := "include";
          req_abort_after := None |};
     (if negb (ok response) then
        let errorText := text response in
        payload P options;;
        console_log
          ("Fetch attempt " +:+ pretty (Z.of_nat i + 1) +:+ " of " +:+ pretty retries
           +:+ " failed for " +:+ url +:+ ": [Error: HTTP "
           +:+ pretty (status response) +:+ "] - " +:+ errorText);;
        if (status response =? 403) && (Z.of_nat i <? retries - 1) then
          let delay := initialDelay * 2 ^ Z.of_nat i in
          console_log
            ("Waiting " +:+ pretty delay +:+ "ms before retrying with User-Agent: "
             +:+ currentUserAgent +:+ "...");;
          wait delay;;
          continue
        else
          throw (mkError ("HTTP " +:+ pretty (status response) +:+ " - " +:+ errorText))
      else mret ());;
     console_log
       ("Fetch succeeded for " +:+ url +:+ " on attempt " +:+ pretty (Z.of_nat i + 1));;
     let setCookie := resp_headers response !! "set-cookie" in
     storeCookie setCookie;;
     return_ response)
    (λ error,
       console_log
         ("Fetch attempt " +:+ pretty (Z.of_nat i + 1) +:+ " of " +:+ pretty retries
          +:+ " failed for " +:+ url +:+ ":");;
       if Z.of_nat i <? retries - 1 then
         let delay := initialDelay * 2 ^ Z.of_nat i in
         console_log ("Waiting " +:+ pretty delay +:+ "ms before retrying...");;
         wait delay
       else
         throw error).

Definition fetchWithRetry (st : Storage) : Run :=
  for_loop attempt
    (mkError ("Fetch failed after " +:+ pretty retries +:+ " attempts"))
    (Z.to_nat retries) 0 st.

End fetchWithRetry.
End Orders.

(** ** The plain copies

    The helper of the first screen of [src/app/checkout.tsx] and the one of
    the search screen of [src/app/restaurant.tsx] hand the caller's options
    to [fetch] as they are: no default headers, no identity, no session
    cookie. [credentials] is the [credentials] entry of those options, which
    [RequestInit] above leaves out because the other copies overwrite
    it. *)

Definition passedOn (url : string) (options : RequestInit) (credentials : string)
    : Request :=
  {| req_url := url;
     req_method := method options;
     req_body := body options;
     req_headers := headers options;
     req_credentials := credentials;
     req_abort_after := None |}.

Module Checkout.
Section fetchWithRetry.
Context (P : Platform).
Context (url : string) (options : RequestInit) (credentials : string).
Context (retries delay : Z).

Definition attempt (i : nat) : M () :=
  try_catch
    (response ← callFetch P i (passedOn url options credentials);
     (if negb (ok response) then
        let errorText := text response in
        console_error
          ("Fetch attempt " +:+ pretty (Z.of_nat i + 1) +:+ " of " +:+ pretty retries
           +:+ " failed for " +:+ url +:+ ": [Error: HTTP "
           +:+ pretty (status response) +:+ "] - " +:+ errorText);;
        throw (mkError ("HTTP " +:+ pretty (status response) +:+ " - " +:+ errorText))
      else mret ());;
     console_log
       ("Fetch succeeded for " +:+ url +:+ " on attempt " +:+ pretty (Z.of_nat i + 1));;
     return_ response)
    (λ error,
       console_error
         ("Fetch attempt " +:+ pretty (Z.of_nat i + 1) +:+ " of " +:+ pretty retries
          +:+ " failed for " +:+ url +:+ ":");;
       if Z.of_nat i <? retries - 1 then
         wait (delay * 2 ^ Z.of_nat i)
       else
         throw error).

Definition fetchWithRetry (st : Storage) : Run :=
  for_loop attempt
    (mkError ("Fetch failed after " +:+ pretty retries +:+ " attempts"))
    (Z.to_nat retries) 0 st.

End fetchWithRetry.
End Checkout.

Module RestaurantSearch.
Section fetchWithRetry.
Context (P : Platform).
(** [response.statusText], which [Response] above does not carry. *)
Context (statusText : Response → string).
Context (url : string) (options : RequestInit) (credentials : string).
Context (retries delay : Z).

(** [new Error(`HTTP ${response.status}: ${response.statusText || 'Unknown error'}`)] *)
Definition statusError (response : Response) : Error :=
  mkError ("HTTP " +:+ pretty (status response) +:+ ": "
           +:+ (if truthy (Some (statusText response)) then statusText response
                else "Unknown error")).

Definition attempt (i : nat) : M () :=
  try_catch
    (response ← callFetch P i (passedOn url options credentials);
     (if negb (ok response) then throw (statusError response) else mret ());;
     return_ response)
    (λ error,
       console_error
         ("Fetch attempt " +:+ pretty (Z.of_nat i + 1) +:+ " failed for " +:+ url +:+ ":");;
       if Z.of_nat i <? retries - 1 then
         wait (delay * 2 ^ Z.of_nat i)
       else
         throw error).

Definition fetchWithRetry (st : Storage) : Run :=
  for_loop attempt (mkError "Fetch failed after retries") (Z.to_nat retries) 0 st.

End fetchWithRetry.
End RestaurantSearch.

(** ** The plain retry loop in summary *)

Section plain_summary.
Context (P : Platform) (req : Request).
Context (failure : Response → Error).
Context (retries delay : Z).

Definition plain_attempt_summary (i : nat) (st : Storage)
    : list Event * Storage * option Outcome :=
  let failed (e : Error) :=
    if Z.of_nat i <? retries - 1
    then ([EFetch i req; EWait (delay * 2 ^ Z.of_nat i)], st, None)
    else ([EFetch i req], st, Some (Rejected e)) in
  match fetch P i req with
  | Resolves r => if ok r then ([EFetch i req], st, Some (Fulfilled r))
                  else failed (failure r)
  | Rejects e => failed e
  end.

(** The shape of a run of a plain copy that starts at attempt [i] and makes
    [S m] attempts: the same request each time, the storage neither read nor
    written, the first [m] attempts failed and each followed by its wait,
    the last one returned if it is ok and its error raised if not. *)
Record plain_shape (left i m : nat) (st : Storage) (run : Run) : Prop := {
  plain_bound : (S m ≤ left)%nat;
  plain_requests : requests (trace run) = (λ j, (j, req)) <$> seq i (S m);
  plain_reads : reads (trace run) = [];
  plain_writes : writes (trace run) = [];
  plain_storage : storage run = st;
  plain_timeline : timeline (trace run) = schedule_from delay i (S m);
  plain_failed :
    ∀ j, (i ≤ j < i + m)%nat →
         match fetch P j req with Resolves r => ok r = false | Rejects _ => True end;
  plain_last :
    match fetch P (i + m) req with
    | Resolves r =>
        if ok r then outcome run = Fulfilled r
        else S m = left ∧ outcome run = Rejected (failure r)
    | Rejects e => S m = left ∧ outcome run = Rejected e
    end
}.
End plain_summary.

(** ** Time and messages *)

(** The time waited along a timeline. *)
Definition waited (tl : list (nat + Z)) : Z :=
  foldr (λ x total, match x with inr ms => ms + total | inl _ => total end) 0 tl.

(** [s.includes(sub)] *)
Fixpoint includes (s sub : string) : bool :=
  String.prefix sub s ||
  match s with
  | EmptyString => false
  | String _ s' => includes s' sub
  end.

(** The [catch] block of [fetchRecipeDetails] in the third screen of
    [src/app/checkout.tsx], whose helper is the one of
    [utils/fetchWithRetry.ts] word for word: the message it shows for an
    error with the given [message] and [name]. *)
Definition MAX_RETRIES : Z := 3.

Definition fetchRecipeDetails_errorMessage (message name : string) (retryCount : Z)
    : string :=
  if includes message "Network request failed"
     || includes message "Fetch failed after"
     || String.eqb name "AbortError"
  then if MAX_RETRIES <=? retryCount
       then "Still no connection. Please check your internet and try again later."
       else "Internet is not stable"
  else "Failed to load recipe details. Please try again.".

(** [console.log] where the copy of [recipe-details.tsx] has
    [console.error]: an entry of a failed attempt, logged as an error there,
    is logged as information; every other event is as it is. *)
Definition demoted (e : Event) : Event :=
  match e with
  | ELog LogError msg =>
      if String.prefix "Fetch attempt " msg then ELog LogInfo msg else e
  | _ => e
  end.

(** ** The cart and the likes in the storage

    The screens keep the cart and the liked recipes as JSON text under the
    storage keys [cart] and [likes]. [JSON.parse] and [JSON.stringify] are
    the platform's: they are parameters, [JSON.parse] answering a list or
    the error it throws. Alerts, navigation and component state are not
    events of the trace; each handler answers what it decided. *)

Module Recipe.
(** [interface Recipe] *)
Record t := mk {
  id : string;
  name : string;
  description : string;
  price : string;
  image_url : string;
  category_id : string;
  restaurantId : string;
  vat_fee : string;
  delivery_fee : string
}.
End Recipe.

(** An entry of the cart: an object with string properties, [id] among
    them, and a [quantity]. *)
Record CartItem := mkCartItem {
  props : gmap string string;
  quantity : Z
}.

(** [item.id === id] *)
Definition hasId (id : string) (item : CartItem) : bool :=
  bool_decide (props item !! "id" = Some id).

(** [cart ? JSON.parse(cart) : []] after [AsyncStorage.getItem(key)] *)
Definition readList {A} (parse : string → Error + list A) (key : string)
    : M (list A) :=
  stored ← getItem key;
  if truthy stored then
    match parse (default "" stored) with
    | inr items => mret items
    | inl e => throw e
    end
  else mret [].

(** [cartItems.reduce((sum, item) => sum + item.quantity, 0)] *)
Definition totalItems (cartItems : list CartItem) : Z :=
  foldl (λ sum item, sum + quantity item) 0 cartItems.

Module RecipeDetailsCart.
Section handleAddToCart.
Context (parse : string → Error + list CartItem).
Context (stringify : list CartItem → string).

Inductive Answer := NotLoaded | AlreadyInCart | Added | Failed.

(** The object literal [newItem]; [id] is the route parameter. *)
Definition newItem (id : string) (recipe : Recipe.t) : CartItem :=
  {| props := list_to_map [
       ("id", id);
       ("name", Recipe.name recipe);
       ("price", Recipe.price recipe);
       ("image_url", Recipe.image_url recipe);
       ("restaurantId", Recipe.restaurantId recipe);
       ("vat_fee", Recipe.vat_fee recipe);
       ("delivery_fee", Recipe.delivery_fee recipe)];
     quantity := 1 |}.

(** [handleAddToCart] of [src/app/recipe-details.tsx]; [recipe] is the
    component state, [None] while the recipe is not loaded. *)
Definition handleAddToCart (id : string) (recipe : option Recipe.t) : M Answer :=
  try_catch
    (match recipe with
     | None => mret NotLoaded
     | Some recipe =>
         cartItems ← readList parse "cart";
         let itemExists := existsb (hasId id) cartItems in
         if itemExists then mret AlreadyInCart
         else
           let cartItems := cartItems ++ [newItem id recipe] in
           setItem "cart" (stringify cartItems);;
           console_log ("Added " +:+ Recipe.name recipe +:+ " to cart");;
           mret Added
     end)
    (λ error,
       console_error "Error adding to cart:";;
       mret Failed).

End handleAddToCart.
End RecipeDetailsCart.

Module OrderNow.
Section addToCart.
Context (parse : string → Error + list CartItem).
Context (stringify : list CartItem → string).

(** [{ ...recipe, quantity: 1 }] *)
Definition withQuantity1 (recipe : Recipe.t) : CartItem :=
  {| props := list_to_map [
       ("id", Recipe.id recipe);
       ("name", Recipe.name recipe);
       ("description", Recipe.description recipe);
       ("price", Recipe.price recipe);
       ("image_url", Recipe.image_url recipe);
       ("category_id", Recipe.category_id recipe);
       ("restaurantId", Recipe.restaurantId recipe);
       ("vat_fee", Recipe.vat_fee recipe);
       ("delivery_fee", Recipe.delivery_fee recipe)];
     quantity := 1 |}.

(** [existingItem.quantity += 1] *)
Definition oneMore (item : CartItem) : CartItem :=
  {| props := props item; quantity := quantity item + 1 |}.

(** [find] the first entry with the recipe's id and count it once more, or
    [push] a new entry. *)
Definition added (recipe : Recipe.t) (cartItems : list CartItem) : list CartItem :=
  match list_find (λ item, hasId (Recipe.id recipe) item = true) cartItems with
  | Some (i, existingItem) => alter oneMore i cartItems
  | None => cartItems ++ [withQuantity1 recipe]
  end.

(** [addToCart] of the second screen of [src/app/orders.tsx]; it answers the
    count it sets with [setCartCount], [None] when it set none. *)
Definition addToCart (recipe : Recipe.t) : M (option Z) :=
  try_catch
    (cartItems ← readList parse "cart";
     let cartItems := added recipe cartItems in
     setItem "cart" (stringify cartItems);;
     let totalItems := totalItems cartItems in
     console_log ("Added to cart: " +:+ Recipe.name recipe);;
     mret (Some totalItems))
    (λ error,
       console_error "Error adding to cart:";;
       mret None).

(** [loadCart] of the same screen: the count it sets. *)
Definition loadCart : M (option Z) :=
  try_catch
    (cartItems ← readList parse "cart";
     mret (Some (totalItems cartItems)))
    (λ error,
       console_error "Error loading cart:";;
       mret None).

End addToCart.
End OrderNow.

Module Likes.
Section likes.
Context (parse : string → Error + list Recipe.t).
Context (stringify : list Recipe.t → string).

(** [toggleLike] of the second screen of [src/app/custom-orders.tsx] (the
    same in [src/app/search-results.tsx]); [likedRecipes] is the component
    state, the ids shown as liked, and the answer is the state it sets,
    [None] when it set none. *)
Definition toggleLike (likedRecipes : list string) (recipe : Recipe.t)
    : M (option (list string)) :=
  try_catch
    (likedItems ← readList parse "likes";
     let isCurrentlyLiked :=
       existsb (λ item, String.eqb (Recipe.id item) (Recipe.id recipe)) likedItems in
     '(likedItems, likedRecipes) ←
       (if isCurrentlyLiked then
          let likedItems :=
            filter (λ item, Recipe.id item ≠ Recipe.id recipe) likedItems in
          let likedRecipes := filter (λ id, id ≠ Recipe.id recipe) likedRecipes in
          console_log ("Removed from likes: " +:+ Recipe.name recipe);;
          mret (likedItems, likedRecipes)
        else
          let likedItems := likedItems ++ [recipe] in
          let likedRecipes := likedRecipes ++ [Recipe.id recipe] in
          console_log ("Added to likes: " +:+ Recipe.name recipe);;
          mret (likedItems, likedRecipes));
     setItem "likes" (stringify likedItems);;
     mret (Some likedRecipes))
    (λ error,
       console_error "Error toggling like:";;
       mret None).

(** [unlikeRecipe] of [src/app/likes.tsx]; the answer is the list it sets as
    component state. *)
Definition unlikeRecipe (recipeId : string) : M (option (list Recipe.t)) :=
  try_catch
    (likedItems ← readList parse "likes";
     let likedItems := filter (λ item, Recipe.id item ≠ recipeId) likedItems in
     setItem "likes" (stringify likedItems);;
     console_log ("Removed from likes: " +:+ recipeId);;
     mret (Some likedItems))
    (λ error,
       console_error "Error unliking recipe:";;
       mret None).

End likes.
End Likes.

(** What a handler leaves behind: its answer, if it completed normally. *)
Definition answer {A} (r : list Event * Storage * Completion A) : option A :=
  match r.2 with Normal a => Some a | _ => None end.

(** The storage a handler leaves and the events it made. *)
Definition after {A} (r : list Event * Storage * Completion A) : Storage := r.1.2.
Definition events {A} (r : list Event * Storage * Completion A) : list Event := r.1.1.

(** The list the storage holds under [key], as [readList] reads it: empty
    when the key is missing or its text is empty, else what [JSON.parse]
    makes of the text. *)
Definition holds {A} (parse : string → Error + list A) (key : string)
    (st : Storage) (items : list A) : Prop :=
  match st !! key with
  | Some s => if truthy (Some s) then parse s = inr items else items = []
  | None => items = []
  end.

(** The [id] of each entry of a cart ([None]: the entry has none). *)
Definition itemIds (cartItems : list CartItem) : list (option string) :=
  (λ item, props item !! "id") <$> cartItems.

(** ** The dashboard: shuffling and search suggestions
    ([src/app/custom-orders.tsx], second screen, and [src/app/restaurant.tsx]) *)

(** [[shuffled[i], shuffled[j]] = [shuffled[j], shuffled[i]]] for indices
    within the array (indices that [Math.floor(Math.random() * (i + 1))]
    stays within; outside of them the list is left as it is). *)
Definition swap {A} (shuffled : list A) (i j : nat) : list A :=
  match shuffled !! i, shuffled !! j with
  | Some a, Some b => <[j := a]> (<[i := b]> shuffled)
  | _, _ => shuffled
  end.

(** The loop [for (let i = ...; i > 0; i--)] from index [i] down; [pick i]
    is what [Math.floor(Math.random() * (i + 1))] gave at index [i]. *)
Fixpoint shuffle_from {A} (pick : nat → nat) (i : nat) (shuffled : list A) : list A :=
  match i with
  | O => shuffled
  | S i' => shuffle_from pick i' (swap shuffled i (pick i))
  end.

Definition shuffleArray {A} (pick : nat → nat) (array : list A) : list A :=
  let shuffled := array in
  take 20 (shuffle_from pick (length shuffled - 1) shuffled).

(** The suggestions [handleSearch] sets for a query; [trim] and
    [toLowerCase] are the platform's. *)
Definition suggestions (trim toLowerCase : string → string)
    (allRecipes : list Recipe.t) (query : string) : list string :=
  if String.eqb (trim query) "" then []
  else
    let filtered :=
      Recipe.name <$>
        filter (λ recipe, includes (toLowerCase (Recipe.name recipe))
                            (toLowerCase query) = true) allRecipes in
    take 5 filtered.

(** ** A caller: [handleSubmit] of [src/app/custom-orders.tsx] *)

(** An [async] call awaited inside a handler: its effects, then its
    response, or its error thrown. *)
Definition await (run : Storage → Run) : M Response := λ st,
  match run st with
  | (tr, st', Fulfilled r) => (tr, st', Normal r)
  | (tr, st', Rejected e) => (tr, st', Throw e)
  end.

Module CustomOrdersForm.

(** What the screen reads of the object [response.json()] resolves to. *)
Record ApiResult := mkApiResult {
  success : bool;
  api_message : option string
}.

(** The modal the handler leaves on screen: [modalType] and
    [modalMessage]. *)
Inductive Modal :=
| ModalError (modalMessage : string)
| ModalSuccess (modalMessage : string).

Section handleSubmit.
Context (P : Platform).
(** [String.prototype.trim], [JSON.stringify] of the request object (user
    id, description, [selected_restaurants]) and [response.json()]. *)
Context (trim : string → string).
Context (stringify : string → string → option (list string) → string).
Context (json : Response → Error + ApiResult).

Definition submit_url : string :=
  "https://cravii.ng/cravii/api/submit_custom_request.php".

Definition handleSubmit (description selectedOption : string) : M Modal :=
  if String.eqb (trim description) "" then
    mret (ModalError "Please enter a description for your custom order.")
  else
    id ← getItem "id";
    if negb (truthy id) then
      mret (ModalError "Please log in to submit a custom order.")
    else
      let requestData :=
        stringify (default "" id) description
          (if String.eqb selectedOption "all" then None else Some [selectedOption]) in
      try_catch
        (console_log "Submitting custom order:";;
         response ← await (CustomOrders.fetchWithRetry P submit_url
                             {| method := Some "POST"; headers := ∅;
                                body := Some requestData |} 4 300);
         result ← (λ st, match json response with
                         | inr result => ([], st, Normal result)
                         | inl e => ([], st, Throw e)
                         end);
         console_log "submit_custom_request.php response:";;
         if success result then
           mret (ModalSuccess "Custom order submitted successfully!")
         else
           mret (ModalError (if truthy (api_message result)
                             then default "" (api_message result)
                             else "Failed to submit custom order.")))
        (λ error,
           console_log "Submit error:";;
           mret (ModalError (if truthy (Some (message error)) then message error
                             else "An error occurred. Please try again."))).

End handleSubmit.
End CustomOrdersForm.
(** ** A caller: [fetchRecipeDetails] of [src/app/recipe-details.tsx] *)

Module RecipeDetailsScreen.

(** What the screen reads of the objects [response.json()] resolves to:
    [success], whether [data] is there, and in it [location] of the user
    and [restaurantId] of the recipe ([None]: the property is undefined). *)
Record UserResult := mkUserResult {
  user_success : bool;
  user_data : option (option string)
}.
Record RecipeResult := mkRecipeResult {
  recipe_success : bool;
  recipe_data : option (option string)
}.
Record RestaurantResult := mkRestaurantResult {
  restaurant_success : bool;
  restaurant_data : option ()
}.

(** What reading [property] of an undefined [data] throws. *)
Definition typeError (property : string) : Error :=
  mkError ("Cannot read property '" +:+ property +:+ "' of undefined").

(** [console.warn]; the trace tells two levels apart and records a warning
    with the errors. *)
Definition console_warn (msg : string) : M () := console_error msg.

(** The two alerts of the screen. *)
Definition tryAgain : string := "Failed to load recipe details. Please try again.".
Definition checkConnection : string :=
  "Failed to load recipe details. Please check your connection and try again.".

Definition user_url (userId : string) : string :=
  "https://cravii.ng/cravii/api/get_user.php?id=" +:+ userId.
Definition recipe_url (id : string) : string :=
  "https://cravii.ng/cravii/api/get_recipe.php?id=" +:+ id.
Definition restaurant_url (restaurantId : string) : string :=
  "https://cravii.ng/cravii/api/get_restaurant.php?id=" +:+ restaurantId.

Section fetchRecipeDetails.
Context (P : Platform).
Context (json_user : Response → Error + UserResult).
Context (json_recipe : Response → Error + RecipeResult).
Context (json_restaurant : Response → Error + RestaurantResult).

(** [await response.json()] *)
Definition json {A} (parse : Response → Error + A) (response : Response) : M A :=
  λ st, match parse response with
        | inr result => ([], st, Normal result)
        | inl e => ([], st, Throw e)
        end.

Definition get : RequestInit := {| method := Some "GET"; headers := ∅; body := None |}.

(** The first statements of the [try] block: the user's location. *)
Definition storeUserLocation : M () :=
  userId ← getItem "id";
  if truthy userId then
    try_catch
      (userResponse ← await (RecipeDetails.fetchWithRetry P
         (user_url (default "" userId)) get 4 300);
       userResult ← json json_user userResponse;
       console_log "User API response:";;
       if user_success userResult then
         match user_data userResult with
         | Some location =>
             setItem "userLocation"
               (if truthy location then default "" location else "N.Y Bronx")
         | None => throw (typeError "location")
         end
       else
         console_error "User fetch failed:";;
         setItem "userLocation" "N.Y Bronx")
      (λ userError,
         console_error "User fetch failed:";;
         setItem "userLocation" "N.Y Bronx")
  else
    console_warn "No user ID found. Defaulting to fallback location.";;
    setItem "userLocation" "N.Y Bronx".

(** The statements that follow: the recipe and the name of its restaurant.
    The answer is the message of the alert raised, if one is. *)
Definition loadRecipe (id : string) : M (option string) :=
  response ← await (RecipeDetails.fetchWithRetry P (recipe_url id) get 4 300);
  result ← json json_recipe response;
  if recipe_success result then
    match recipe_data result with
    | Some restaurantId =>
        if truthy restaurantId then
          restaurantResponse ← await (RecipeDetails.fetchWithRetry P
            (restaurant_url (default "" restaurantId)) get 4 300);
          restaurantResult ← json json_restaurant restaurantResponse;
          if restaurant_success restaurantResult then
            match restaurant_data restaurantResult with
            | Some _ => mret None
            | None => throw (typeError "name")
            end
          else
            console_error "Failed to fetch restaurant name:";;
            mret None
        else mret None
    | None => throw (typeError "restaurantId")
    end
  else
    console_error "Failed to fetch recipe details:";;
    mret (Some tryAgain).

(** The effect of the screen for the route parameter [id]; it answers the
    message of the alert it raises, if it raises one. *)
Definition fetchRecipeDetails (id : string) : M (option string) :=
  try_catch
    (storeUserLocation;;
     loadRecipe id)
    (λ error,
       console_error "Error fetching recipe details:";;
       mret (Some checkConnection)).

End fetchRecipeDetails.
End RecipeDetailsScreen.

(** ** How a handler ends *)

(** A computation that leaves the value under [k] as it found it. *)
Definition keeps (k : string) {A} (m : M A) : Prop :=
  ∀ st, after (m st) !! k = st !! k.

(** ** Scenarios of the screens *)

Definition jollof : Recipe.t :=
  {| Recipe.id := "7"; Recipe.name := "Jollof rice";
     Recipe.description := "Smoky party jollof"; Recipe.price := "2500";
     Recipe.image_url := "jollof.jpg"; Recipe.category_id := "2";
     Recipe.restaurantId := "3"; Recipe.vat_fee := "75";
     Recipe.delivery_fee := "500" |}.

(** A stand-in for [JSON.stringify] on a cart: the ids and quantities. *)
Definition cart_text (cartItems : list CartItem) : string :=
  "[" +:+ foldr (λ item s, default "?" (props item !! "id") +:+ "x"
                           +:+ pretty (quantity item) +:+ ";" +:+ s) "]" cartItems.

(** A stand-in for [JSON.stringify] on the likes: the ids. *)
Definition likes_text (likedItems : list Recipe.t) : string :=
  "[" +:+ foldr (λ item s, Recipe.id item +:+ ";" +:+ s) "]" likedItems.

(** A stand-in for [JSON.parse] that reads back the texts of [known] lists
    and throws on any other text. *)
Definition reads_back {A} (stringify : list A → string) (known : list (list A))
    (s : string) : Error + list A :=
  match list_find (λ items, stringify items = s) known with
  | Some (_, items) => inr items
  | None => inl (mkError "JSON Parse error: Unexpected token")
  end.

Definition suya : Recipe.t :=
  {| Recipe.id := "9"; Recipe.name := "Beef suya";
     Recipe.description := "Grilled, with yaji"; Recipe.price := "1800";
     Recipe.image_url := "suya.jpg"; Recipe.category_id := "4";
     Recipe.restaurantId := "3"; Recipe.vat_fee := "54";
     Recipe.delivery_fee := "500" |}.

(** The carts of the scenarios: empty, the recipe added on its screen, the
    same counted twice, and the three after another recipe. *)
Definition carts : list (list CartItem) :=
  let first := RecipeDetailsCart.newItem "7" jollof in
  let other := RecipeDetailsCart.newItem "9" suya in
  [[]; [first]; [OrderNow.oneMore first];
   [other]; [other; first]; [other; OrderNow.oneMore first]].

Definition likes_lists : list (list Recipe.t) := [[]; [jollof]].

(** Every call is answered 404. *)
Definition not_found : Platform :=
  {| DEV := false;
     JSON_parse := JSON_parse_stub;
     fetch := λ _ _, Resolves (mkResponse 404 "Not found" ∅) |}.

(** Stand-ins of the form of the custom order: [trim] leaves a text without
    outer blanks as it is, the request object is written as its three
    fields, and no body read here is JSON. *)
Definition trim_stub (s : string) : string := s.

Definition request_text (user_id description : string)
    (selected_restaurants : option (list string)) : string :=
  "{" +:+ user_id +:+ ";" +:+ description +:+ ";"
  +:+ match selected_restaurants with
      | None => "null"
      | Some l => foldr (λ x s, x +:+ "," +:+ s) "" l
      end +:+ "}".

Definition json_stub (r : Response) : Error + CustomOrdersForm.ApiResult :=
  inl (mkError "JSON Parse error: Unexpected token").

(** * Proofs *)

(** ** Traces *)

Lemma effects_app tr1 tr2 : effects (tr1 ++ tr2) = effects tr1 ++ effects tr2.
Proof. apply omap_app. Qed.

(** Log entries are neither requests, storage accesses nor waits. *)
Lemma omap_effects {A} (f : Event → option A) tr :
  (∀ level msg, f (ELog level msg) = None) →
  omap f (effects tr) = omap f tr.
Proof.
  intros Hlog. induction tr as [|e tr IH]; [done|].
  unfold effects in *. destruct e; cbn; rewrite ?Hlog, ?IH; done.
Qed.

Lemma requests_effects tr : requests (effects tr) = requests tr.
Proof. by apply omap_effects. Qed.
Lemma reads_effects tr : reads (effects tr) = reads tr.
Proof. by apply omap_effects. Qed.
Lemma writes_effects tr : writes (effects tr) = writes tr.
Proof. by apply omap_effects. Qed.
Lemma timeline_effects tr : timeline (effects tr) = timeline tr.
Proof. by apply omap_effects. Qed.

Lemma requests_cookieWrites r : requests (cookieWrites r) = [].
Proof. unfold cookieWrites. by destruct (truthy _). Qed.
Lemma reads_cookieWrites r : reads (cookieWrites r) = [].
Proof. unfold cookieWrites. by destruct (truthy _). Qed.
Lemma timeline_cookieWrites r : timeline (cookieWrites r) = [].
Proof. unfold cookieWrites. by destruct (truthy _). Qed.

(** ** Each copy behaves as its summary *)

Ltac branch :=
  match goal with
  | |- context [fetch ?P ?i ?req] => destruct (fetch P i req) as [?r|?e] eqn:?
  | |- context [ok ?r] => destruct (ok r) eqn:?
  | |- context [DEV ?P] => destruct (DEV P) eqn:?
  | |- context [truthy ?o] => destruct (truthy o) eqn:?
  | |- context [JSON_parse ?P ?s] => destruct (JSON_parse P s) as [|?e] eqn:?
  | |- context [(?a =? ?b)%Z] => destruct (a =? b)%Z eqn:?
  | |- context [(?a <? ?b)%Z] => destruct (a <? b)%Z eqn:?
  | |- context [resp_headers ?r !! ?k] => destruct (resp_headers r !! k) as [?c|] eqn:?
  end.

Ltac run_attempt :=
  cbv [mbind mret M_bind M_ret try_catch callFetch getItem setItem storeCookie
       payload when throw continue return_ wait console_error console_log emit
       attempt_summary utils_failure recipe_failure payloadError cookieWrites
       cookieStored request settle];
  repeat (branch; cbn [negb andb fst snd effects omap list_omap is_log app default]);
  try reflexivity; try discriminate.

Lemma utils_attempt P url options retries initialDelay timeout i st :
  let '(tr, st', c) := Utils.attempt P url options retries initialDelay timeout i st in
  (effects tr, st', settle c)
  = attempt_summary P (request url options (Some timeout)) (utils_failure P options)
      (exhausted retries) retries initialDelay i st.
Proof. unfold Utils.attempt. run_attempt. Qed.

Lemma recipe_attempt P url options retries initialDelay i st :
  let '(tr, st', c) := RecipeDetails.attempt P url options retries initialDelay i st in
  (effects tr, st', settle c)
  = attempt_summary P (request url options None) (recipe_failure P options)
      id retries initialDelay i st.
Proof. unfold RecipeDetails.attempt. run_attempt. Qed.

Lemma custom_attempt P url options retries initialDelay i st :
  let '(tr, st', c) := CustomOrders.attempt P url options retries initialDelay i st in
  (effects tr, st', settle c)
  = attempt_summary P (request url options None) httpError
      id retries initialDelay i st.
Proof. unfold CustomOrders.attempt. run_attempt. Qed.

(** The loop over attempts that behave as [attempt_summary] behaves as
    [run_summary]. *)
Lemma for_loop_summary P req failure final retries initialDelay last attempt :
  (∀ i st, let '(tr, st', c) := attempt i st in
           (effects tr, st', settle c)
           = attempt_summary P req failure final retries initialDelay i st) →
  ∀ left i st,
    let run := for_loop attempt last left i st in
    (effects (trace run), storage run, outcome run)
    = run_summary P req failure final retries initialDelay last left i st.
Proof.
  intros Hattempt left. induction left as [|left IH]; intros i st; [done|].
  cbn -[attempt_summary]. specialize (Hattempt i st).
  destruct (attempt i st) as [[tr st'] c].
  rewrite <- Hattempt. specialize (IH (S i) st'). cbn in IH.
  destruct c; cbn; try done;
    destruct (for_loop attempt last left (S i) st') as [[tr' st''] o];
    rewrite <- IH; cbn; by rewrite effects_app.
Qed.

(** ** The shape of a run *)

Lemma requests_app tr1 tr2 : requests (tr1 ++ tr2) = requests tr1 ++ requests tr2.
Proof. apply omap_app. Qed.
Lemma reads_app tr1 tr2 : reads (tr1 ++ tr2) = reads tr1 ++ reads tr2.
Proof. apply omap_app. Qed.
Lemma writes_app tr1 tr2 : writes (tr1 ++ tr2) = writes tr1 ++ writes tr2.
Proof. apply omap_app. Qed.
Lemma timeline_app tr1 tr2 : timeline (tr1 ++ tr2) = timeline tr1 ++ timeline tr2.
Proof. apply omap_app. Qed.

Lemma requests_cons e tr :
  requests (e :: tr)
  = match e with EFetch i rq => [(i, rq)] | _ => [] end ++ requests tr.
Proof. by destruct e. Qed.
Lemma reads_cons e tr :
  reads (e :: tr)
  = match e with EGetItem k v => [(k, v)] | _ => [] end ++ reads tr.
Proof. by destruct e. Qed.
Lemma writes_cons e tr :
  writes (e :: tr)
  = match e with ESetItem k v => [(k, v)] | _ => [] end ++ writes tr.
Proof. by destruct e. Qed.
Lemma timeline_cons e tr :
  timeline (e :: tr)
  = match e with
    | EFetch i _ => [inl i]
    | EWait ms => [inr ms]
    | _ => []
    end ++ timeline tr.
Proof. by destruct e. Qed.

Lemma requests_nil : requests [] = [].
Proof. done. Qed.
Lemma reads_nil : reads [] = [].
Proof. done. Qed.
Lemma writes_nil : writes [] = [].
Proof. done. Qed.
Lemma timeline_nil : timeline [] = [].
Proof. done. Qed.

Create Rewrite HintDb trace.
Hint Rewrite requests_app reads_app writes_app timeline_app
  requests_cons reads_cons writes_cons timeline_cons
  requests_nil reads_nil writes_nil timeline_nil
  requests_cookieWrites reads_cookieWrites timeline_cookieWrites
  app_nil_r : trace.

Ltac read_trace :=
  unfold trace, storage, outcome; cbn [fst snd];
  autorewrite with trace; cbn [app fmap list_fmap seq replicate schedule_from].

Section shape_of_summary.
Context (P : Platform) (req : nat → option string → Request).
Context (failure : Response → Error) (final : Error → Error).
Context (retries initialDelay : Z) (last : Error).

Lemma run_summary_shape left i st :
  (1 ≤ left)%nat → Z.of_nat i + Z.of_nat left = retries →
  ∃ m, shape P req failure final initialDelay left i m st
         (run_summary P req failure final retries initialDelay last left i st).
Proof.
  revert i st. induction left as [|left IH]; intros i st Hleft Hinv; [lia|].
  cbn [run_summary]. unfold attempt_summary.
  destruct (fetch P i (req i (st !! "sessionCookie"))) as [r|e] eqn:Hfetch;
    [destruct (ok r) eqn:Hok|];
    [|destruct (Z.of_nat i <? retries - 1) eqn:Hmore..].
  1: { (* the attempt succeeds *)
    exists O. split; try (read_trace; done); try lia.
    rewrite Nat.add_0_r, Hfetch, Hok. by read_trace. }
  (* the attempt fails and iterations are left *)
  all: [> apply Z.ltb_lt in Hmore | | apply Z.ltb_lt in Hmore | ].
  1,3: destruct (IH (S i) st) as [m [Hb Hreq Hreads Htl Hfailed Hlast]]; [lia..|].
  1,2: destruct (run_summary _ _ _ _ _ _ _ left (S i) st) as [[tr' st''] o].
  1,2: revert Hreq Hreads Htl Hlast; read_trace; intros Hreq Hreads Htl Hlast.
  1,2: exists (S m); split;
    [ lia
    | read_trace; by rewrite Hreq
    | read_trace; by rewrite Hreads
    | read_trace; by rewrite Htl
    | intros j Hj; destruct (decide (j = i)) as [->|Hne];
      [ unfold attempt_error; rewrite Hfetch, ?Hok; eauto | apply Hfailed; lia ]
    | replace (i + S m)%nat with (S i + m)%nat by lia; revert Hlast;
      destruct (fetch P (S i + m) _) as [r'|e']; [destruct (ok r')|];
      read_trace; intuition lia ].
  (* the attempt fails and it was the last iteration *)
  all: apply Z.ltb_ge in Hmore.
  all: exists O; split; try (read_trace; done); try lia.
  all: rewrite Nat.add_0_r, Hfetch, ?Hok; read_trace; intuition lia.
Qed.

End shape_of_summary.

(** The shape only looks at what [effects] keeps. *)
Lemma shape_effects P req failure final initialDelay left i m st run run' :
  (effects (trace run), storage run, outcome run) = run' →
  shape P req failure final initialDelay left i m st run' →
  shape P req failure final initialDelay left i m st run.
Proof.
  intros <- [Hb Hreq Hreads Htl Hfailed Hlast]. revert Hreq Hreads Htl Hlast.
  change (trace (effects (trace run), storage run, outcome run))
    with (effects (trace run)).
  change (storage (effects (trace run), storage run, outcome run))
    with (storage run).
  change (outcome (effects (trace run), storage run, outcome run))
    with (outcome run).
  rewrite requests_effects, reads_effects, timeline_effects, writes_effects.
  by split.
Qed.

Lemma utils_shape P url options retries initialDelay timeout st :
  1 ≤ retries →
  ∃ m, shape P (request url options (Some timeout)) (utils_failure P options)
         (exhausted retries) initialDelay (Z.to_nat retries) 0 m st
         (Utils.fetchWithRetry P url options retries initialDelay timeout st).
Proof.
  intros Hn.
  destruct (run_summary_shape P (request url options (Some timeout))
              (utils_failure P options) (exhausted retries) retries initialDelay
              (gave_up retries) (Z.to_nat retries) 0 st) as [m Hm]; [lia..|].
  exists m. eapply shape_effects; [|exact Hm].
  apply for_loop_summary, utils_attempt.
Qed.

Lemma recipe_shape P url options retries initialDelay st :
  1 ≤ retries →
  ∃ m, shape P (request url options None) (recipe_failure P options)
         id initialDelay (Z.to_nat retries) 0 m st
         (RecipeDetails.fetchWithRetry P url options retries initialDelay st).
Proof.
  intros Hn.
  destruct (run_summary_shape P (request url options None)
              (recipe_failure P options) id retries initialDelay
              (gave_up retries) (Z.to_nat retries) 0 st) as [m Hm]; [lia..|].
  exists m. eapply shape_effects; [|exact Hm].
  apply for_loop_summary, recipe_attempt.
Qed.

(** ** What a shape says about the requests *)

Section shape_facts.
Context {P : Platform} {req : nat → option string → Request}.
Context {failure : Response → Error} {final : Error → Error}.
Context {initialDelay : Z} {left i m : nat} {st : Storage} {run : Run}.
Context (Hshape : shape P req failure final initialDelay left i m st run).

Lemma shape_indices : (requests (trace run)).*1 = seq i (S m).
Proof.
  rewrite (shape_requests _ _ _ _ _ _ _ _ _ _ Hshape), <- list_fmap_compose.
  apply list_fmap_id.
Qed.

Lemma shape_last_request :
  last (requests (trace run)) = Some ((i + m)%nat, req (i + m)%nat (st !! "sessionCookie")).
Proof.
  rewrite (shape_requests _ _ _ _ _ _ _ _ _ _ Hshape), fmap_last, seq_S, last_snoc.
  done.
Qed.

Lemma shape_request j rq :
  (j, rq) ∈ requests (trace run) →
  (i ≤ j ≤ i + m)%nat ∧ rq = req j (st !! "sessionCookie").
Proof.
  rewrite (shape_requests _ _ _ _ _ _ _ _ _ _ Hshape).
  intros (j' & [= <- ->] & Hj)%list_elem_of_fmap. apply elem_of_seq in Hj.
  split; [lia|done].
Qed.

(** When the transport answers every call with a response that is not ok,
    the run uses up its iterations and rejects with what the last response
    left its attempt with. *)
Lemma shape_never_ok (answers : nat → Response) :
  (∀ j rq, fetch P j rq = Resolves (answers j)) →
  (∀ j, ok (answers j) = false) →
  S m = left ∧ outcome run = Rejected (final (failure (answers (i + m)%nat))).
Proof.
  intros Hfetch Hok. pose proof (shape_last _ _ _ _ _ _ _ _ _ _ Hshape) as Hlast.
  rewrite Hfetch, Hok in Hlast. by destruct Hlast as (? & ? & _).
Qed.

End shape_facts.

(** ** The timeline in the words of the specification *)

Lemma schedule_from_flat_map initialDelay i m :
  schedule_from initialDelay i (S m)
  = inl i :: flat_map (λ j : nat, [inr (initialDelay * 2 ^ Z.of_nat j); inl (S j)])
               (seq i m).
Proof.
  revert i. induction m as [|m IH]; intros i; [done|].
  cbn [schedule_from] in *. rewrite IH. done.
Qed.

Lemma schedule_shift initialDelay i m :
  flat_map (λ j : nat, match j with
                       | O => [inl O]
                       | S _ => [inr (initialDelay * 2 ^ (Z.of_nat j - 1)); inl j]
                       end) (seq (S i) m)
  = flat_map (λ j : nat, [inr (initialDelay * 2 ^ Z.of_nat j); inl (S j)]) (seq i m).
Proof.
  revert i. induction m as [|m IH]; intros i; [done|].
  cbn [seq flat_map app]. rewrite IH.
  by replace (Z.of_nat (S i) - 1) with (Z.of_nat i) by lia.
Qed.

Lemma schedule_from_0 initialDelay k :
  schedule_from initialDelay 0 k = schedule initialDelay k.
Proof.
  destruct k as [|m]; [done|].
  rewrite schedule_from_flat_map. unfold schedule. cbn [seq flat_map app].
  by rewrite schedule_shift.
Qed.

(** * The claims *)

(** ** Exhaustion *)

Lemma no_retries P url options retries initialDelay timeout st :
  retries ≤ 0 →
  Utils.fetchWithRetry P url options retries initialDelay timeout st
  = ([], st, Rejected (gave_up retries))
  ∧ CustomOrders.fetchWithRetry P url options retries initialDelay st
  = ([], st, Rejected (gave_up retries)).
Proof.
  intros Hn. unfold Utils.fetchWithRetry, CustomOrders.fetchWithRetry.
  replace (Z.to_nat retries) with O by lia. done.
Qed.

(** C10. Called with [retries <= 0], the helper of [utils/fetchWithRetry.ts]
    and the copy of [custom-orders.tsx] do nothing at all (no transport call,
    no storage read or write, no log entry, the storage is left as it was)
    and reject with [Fetch failed after <retries> attempts]. *)
Theorem no_attempt_without_retries P url options retries initialDelay timeout st :
  retries ≤ 0 →
  Utils.fetchWithRetry P url options retries initialDelay timeout st
  = ([], st, Rejected (mkError ("Fetch failed after " +:+ pretty retries +:+ " attempts")))
  ∧ CustomOrders.fetchWithRetry P url options retries initialDelay st
  = ([], st, Rejected (mkError ("Fetch failed after " +:+ pretty retries +:+ " attempts"))).
Proof.
  apply no_retries.
Qed.

(** C1, for [utils/fetchWithRetry.ts] and for the copy of
    [recipe-details.tsx]. When every transport call rejects and
    [retries = n >= 1], both make exactly the [n] calls of attempts
    [0 .. n-1] and reject once. The helper of [utils/fetchWithRetry.ts]
    rejects with [Fetch failed after n attempts: <message of the last
    rejection>]; the copy of [recipe-details.tsx] rejects with the last
    rejection itself. *)
Theorem exhaustion_after_n_rejections
    P url options retries initialDelay timeout st (thrown : nat → Request → Error) :
  1 ≤ retries →
  (∀ i rq, fetch P i rq = Rejects (thrown i rq)) →
  let n := Z.to_nat retries in
  (let run := Utils.fetchWithRetry P url options retries initialDelay timeout st in
   (requests (trace run)).*1 = seq 0 n ∧
   ∃ rq, last (requests (trace run)) = Some ((n - 1)%nat, rq) ∧
         outcome run
         = Rejected (mkError ("Fetch failed after " +:+ pretty retries +:+ " attempts: "
                              +:+ message (thrown (n - 1)%nat rq)))) ∧
  (let run := RecipeDetails.fetchWithRetry P url options retries initialDelay st in
   (requests (trace run)).*1 = seq 0 n ∧
   ∃ rq, last (requests (trace run)) = Some ((n - 1)%nat, rq) ∧
         outcome run = Rejected (thrown (n - 1)%nat rq)).
Proof.
  intros Hn Hdown n. split.
  - destruct (utils_shape P url options retries initialDelay timeout st Hn) as [m Hm].
    cbv zeta. pose proof (shape_last _ _ _ _ _ _ _ _ _ _ Hm) as Hlast.
    rewrite Hdown in Hlast. destruct Hlast as (Hk & Hout & _).
    fold n in Hk. cbn [Nat.add] in Hk.
    split; [by rewrite (shape_indices Hm), Hk|].
    eexists. rewrite (shape_last_request Hm).
    revert Hout. replace (0 + m)%nat with (n - 1)%nat by lia. done.
  - destruct (recipe_shape P url options retries initialDelay st Hn) as [m Hm].
    cbv zeta. pose proof (shape_last _ _ _ _ _ _ _ _ _ _ Hm) as Hlast.
    rewrite Hdown in Hlast. destruct Hlast as (Hk & Hout & _).
    fold n in Hk. cbn [Nat.add] in Hk.
    split; [by rewrite (shape_indices Hm), Hk|].
    eexists. rewrite (shape_last_request Hm).
    revert Hout. replace (0 + m)%nat with (n - 1)%nat by lia. done.
Qed.

(** ** Success after 403 *)

Lemma forbidden_not_ok r : status r = 403 → ok r = false.
Proof. unfold ok. intros ->. done. Qed.

(** C5. With [retries = n >= 2], when the transport answers 403 on the
    attempts [0 .. n-2] and a 2xx response [r] on attempt [n-1], the helper
    returns [r], and the transport calls it made are those of the attempts
    [0 .. n-1], so none follows the success. *)
Theorem success_after_403s P url options retries initialDelay timeout st r :
  2 ≤ retries →
  let n := Z.to_nat retries in
  (∀ i rq, (i < n - 1)%nat → ∃ r', fetch P i rq = Resolves r' ∧ status r' = 403) →
  (∀ rq, fetch P (n - 1)%nat rq = Resolves r) →
  ok r = true →
  let run := Utils.fetchWithRetry P url options retries initialDelay timeout st in
  outcome run = Fulfilled r ∧ (requests (trace run)).*1 = seq 0 n.
Proof.
  intros Hn n H403 Hr Hok. cbv zeta.
  destruct (utils_shape P url options retries initialDelay timeout st) as [m Hm]; [lia|].
  pose proof (shape_bound _ _ _ _ _ _ _ _ _ _ Hm) as Hb. fold n in Hb.
  pose proof (shape_last _ _ _ _ _ _ _ _ _ _ Hm) as Hlast. cbn [Nat.add] in Hlast.
  assert (m = (n - 1)%nat) as ->.
  { destruct (decide (m < n - 1)%nat) as [Hlt|]; [|lia].
    destruct (H403 m (request url options (Some timeout) m (st !! "sessionCookie")) Hlt)
      as (r' & Hr' & Hst).
    rewrite Hr', (forbidden_not_ok _ Hst) in Hlast. fold n in Hlast. lia. }
  rewrite Hr, Hok in Hlast. destruct Hlast as (Hout & _).
  split; [done|]. rewrite (shape_indices Hm). f_equal. lia.
Qed.

(** ** Backoff *)

(** C6. The transport calls and the waits of an invocation, in order, are:
    the call of attempt 0, then for each further attempt [i >= 1] a wait of
    [initialDelay * 2^(i-1)] followed by the call of attempt [i]; nothing is
    waited before attempt 0 and nothing after the last call. *)
Theorem backoff_schedule P url options retries initialDelay timeout st :
  let run := Utils.fetchWithRetry P url options retries initialDelay timeout st in
  ∃ k, (k ≤ Z.to_nat retries)%nat ∧
       timeline (trace run) = schedule initialDelay k.
Proof.
  cbv zeta. destruct (decide (1 ≤ retries)) as [Hn|Hn].
  - destruct (utils_shape P url options retries initialDelay timeout st Hn) as [m Hm].
    exists (S m). split; [apply (shape_bound _ _ _ _ _ _ _ _ _ _ Hm)|].
    rewrite (shape_timeline _ _ _ _ _ _ _ _ _ _ Hm). apply schedule_from_0.
  - exists O. split; [lia|].
    destruct (no_retries P url options retries initialDelay timeout st) as [-> _];
      [lia|done].
Qed.

(** ** Headers *)

Lemma computedHeaders_lookup i k :
  computedHeaders i !! k
  = if decide (k = "Connection") then Some "keep-alive"
    else if decide (k = "Accept-Encoding") then Some "gzip, deflate, br"
    else if decide (k = "User-Agent") then Some (currentUserAgent i)
    else if decide (k = "Content-Type") then Some "application/json"
    else if decide (k = "Accept") then Some "application/json"
    else None.
Proof.
  unfold computedHeaders. repeat case_decide; simplify_map_eq; done.
Qed.

Lemma defaultHeaders_lookup options i k :
  defaultHeaders options i !! k
  = match headers options !! k with
    | Some v => Some v
    | None => computedHeaders i !! k
    end.
Proof.
  unfold defaultHeaders. destruct (headers options !! k) as [v|] eqn:Hk.
  - by apply lookup_union_Some_l.
  - by apply lookup_union_r.
Qed.

Lemma defaultHeaders_Cookie options i :
  defaultHeaders options i !! "Cookie" = headers options !! "Cookie".
Proof.
  rewrite defaultHeaders_lookup, computedHeaders_lookup.
  by destruct (headers options !! "Cookie").
Qed.

Lemma truthy_Some c : truthy (Some c) = true ↔ c ≠ "".
Proof.
  unfold truthy. rewrite negb_true_iff. apply String.eqb_neq.
Qed.

Lemma attemptHeaders_early options stored i :
  (i < 2)%nat → attemptHeaders options stored i = defaultHeaders options i.
Proof.
  intros Hi. unfold attemptHeaders, withCookie. destruct stored as [c|]; [|done].
  replace (2 <=? Z.of_nat i) with false by (symmetry; apply Z.leb_gt; lia).
  by rewrite andb_false_r.
Qed.

Lemma attemptHeaders_Cookie options c i :
  (2 ≤ i)%nat → c ≠ "" → attemptHeaders options (Some c) i !! "Cookie" = Some c.
Proof.
  intros Hi Hc. unfold attemptHeaders, withCookie.
  replace (2 <=? Z.of_nat i) with true by (symmetry; apply Z.leb_le; lia).
  apply truthy_Some in Hc. rewrite Hc. apply lookup_insert_eq.
Qed.

Lemma attemptHeaders_other options stored i k :
  k ≠ "Cookie" → attemptHeaders options stored i !! k = defaultHeaders options i !! k.
Proof.
  intros Hk. unfold attemptHeaders, withCookie. destruct stored as [c|]; [|done].
  destruct (_ && _); [|done]. by apply lookup_insert_ne.
Qed.

Lemma currentUserAgent_rotates i :
  userAgents !! (i `mod` length userAgents)%nat = Some (currentUserAgent i).
Proof.
  unfold currentUserAgent.
  destruct (userAgents !! (i `mod` length userAgents)%nat) eqn:Hua; [done|].
  apply lookup_ge_None in Hua.
  pose proof (Nat.mod_upper_bound i (length userAgents)) as Hlt.
  cbn [length userAgents] in *. lia.
Qed.

(** ** What the copies send and read *)

Lemma utils_request P url options retries initialDelay timeout st i rq :
  (i, rq) ∈ requests (trace (Utils.fetchWithRetry P url options retries
                               initialDelay timeout st)) →
  Z.of_nat i < retries ∧
  rq = request url options (Some timeout) i (st !! "sessionCookie").
Proof.
  destruct (decide (1 ≤ retries)) as [Hn|Hn].
  - destruct (utils_shape P url options retries initialDelay timeout st Hn) as [m Hm].
    intros [Hi ->]%(shape_request Hm).
    pose proof (shape_bound _ _ _ _ _ _ _ _ _ _ Hm). split; [lia|done].
  - destruct (no_retries P url options retries initialDelay timeout st) as [-> _];
      [lia|]. by intros ?%elem_of_nil.
Qed.

Lemma recipe_request P url options retries initialDelay st i rq :
  (i, rq) ∈ requests (trace (RecipeDetails.fetchWithRetry P url options retries
                               initialDelay st)) →
  Z.of_nat i < retries ∧
  rq = request url options None i (st !! "sessionCookie").
Proof.
  destruct (decide (1 ≤ retries)) as [Hn|Hn].
  - destruct (recipe_shape P url options retries initialDelay st Hn) as [m Hm].
    intros [Hi ->]%(shape_request Hm).
    pose proof (shape_bound _ _ _ _ _ _ _ _ _ _ Hm). split; [lia|done].
  - unfold RecipeDetails.fetchWithRetry.
    replace (Z.to_nat retries) with O by lia. by intros ?%elem_of_nil.
Qed.

Lemma utils_reads P url options retries initialDelay timeout st kv :
  kv ∈ reads (trace (Utils.fetchWithRetry P url options retries
                       initialDelay timeout st)) →
  kv = ("sessionCookie", st !! "sessionCookie").
Proof.
  destruct (decide (1 ≤ retries)) as [Hn|Hn].
  - destruct (utils_shape P url options retries initialDelay timeout st Hn) as [m Hm].
    rewrite (shape_reads _ _ _ _ _ _ _ _ _ _ Hm). apply elem_of_replicate_inv.
  - destruct (no_retries P url options retries initialDelay timeout st) as [-> _];
      [lia|]. by intros ?%elem_of_nil.
Qed.

Lemma recipe_reads P url options retries initialDelay st kv :
  kv ∈ reads (trace (RecipeDetails.fetchWithRetry P url options retries
                       initialDelay st)) →
  kv = ("sessionCookie", st !! "sessionCookie").
Proof.
  destruct (decide (1 ≤ retries)) as [Hn|Hn].
  - destruct (recipe_shape P url options retries initialDelay st Hn) as [m Hm].
    rewrite (shape_reads _ _ _ _ _ _ _ _ _ _ Hm). apply elem_of_replicate_inv.
  - unfold RecipeDetails.fetchWithRetry.
    replace (Z.to_nat retries) with O by lia. by intros ?%elem_of_nil.
Qed.

(** C3, for [utils/fetchWithRetry.ts] and for the copy of
    [recipe-details.tsx]. Every storage read of an invocation reads the key
    [sessionCookie] and finds the value [stored] the storage had when the
    invocation started. A request of attempt 0 or 1 carries the default
    headers merged with the caller's and nothing else, so its [Cookie]
    header, if any, is the caller's own; a request of an attempt [i >= 2]
    carries [stored] as its [Cookie] header whenever [stored] is a
    non-empty string. *)
Theorem session_cookie_from_third_attempt
    P url options retries initialDelay timeout st i rq :
  let utils := Utils.fetchWithRetry P url options retries initialDelay timeout st in
  let recipe := RecipeDetails.fetchWithRetry P url options retries initialDelay st in
  let stored := st !! "sessionCookie" in
  (i, rq) ∈ requests (trace utils) ∨ (i, rq) ∈ requests (trace recipe) →
  (∀ kv, kv ∈ reads (trace utils) ∨ kv ∈ reads (trace recipe) →
         kv = ("sessionCookie", stored)) ∧
  ((i < 2)%nat →
     req_headers rq = defaultHeaders options i ∧
     req_headers rq !! "Cookie" = headers options !! "Cookie") ∧
  ((2 ≤ i)%nat → ∀ c, stored = Some c → c ≠ "" →
     req_headers rq !! "Cookie" = Some c).
Proof.
  intros utils recipe stored Hsent.
  assert (req_headers rq = attemptHeaders options stored i) as ->.
  { destruct Hsent as [[_ ->]%utils_request | [_ ->]%recipe_request]; done. }
  split; [|split].
  - intros kv [Hkv|Hkv]; [by eapply utils_reads|by eapply recipe_reads].
  - intros Hi. rewrite attemptHeaders_early by done.
    split; [done|apply defaultHeaders_Cookie].
  - intros Hi c -> Hc. by apply attemptHeaders_Cookie.
Qed.

(** C7, as the code has it. The headers of every request are the five
    computed defaults merged with the caller's headers, the caller's value
    winning wherever both have the key; then, on an attempt [i >= 2] of an
    invocation that found a non-empty session cookie in the storage, the
    [Cookie] header is set to that cookie, whatever the caller supplied
    under that key. *)
Theorem headers_merge_then_cookie
    P url options retries initialDelay timeout st i rq :
  let run := Utils.fetchWithRetry P url options retries initialDelay timeout st in
  let stored := st !! "sessionCookie" in
  let attached := truthy stored && (2 <=? Z.of_nat i) in
  (i, rq) ∈ requests (trace run) →
  (∀ k, k ≠ "Cookie" ∨ attached = false →
        req_headers rq !! k
        = match headers options !! k with
          | Some v => Some v
          | None => computedHeaders i !! k
          end) ∧
  (attached = true → req_headers rq !! "Cookie" = stored).
Proof.
  intros run stored attached [_ ->]%utils_request. cbn [req_headers request].
  fold stored. split.
  - intros k [Hk|Hoff].
    + by rewrite attemptHeaders_other, defaultHeaders_lookup.
    + rewrite <- defaultHeaders_lookup. unfold attemptHeaders, withCookie.
      destruct stored as [c|]; [|done]. fold attached. by rewrite Hoff.
  - intros Hon. unfold attemptHeaders, withCookie.
    destruct stored as [c|] eqn:Hstored; [|done]. fold attached. rewrite Hon.
    apply lookup_insert_eq.
Qed.

(** C8, as the code has it. On every request of attempt [i] the
    [User-Agent] header is the one the caller supplied, when the caller's
    headers have one; when they have none it is the entry [i mod 3] of the
    rotation list, which is there for every [i]. *)
Theorem user_agent_rotation P url options retries initialDelay timeout st i rq :
  let run := Utils.fetchWithRetry P url options retries initialDelay timeout st in
  (i, rq) ∈ requests (trace run) →
  ∃ identity,
    userAgents !! (i `mod` length userAgents)%nat = Some identity ∧
    req_headers rq !! "User-Agent"
    = Some (default identity (headers options !! "User-Agent")).
Proof.
  intros run [_ ->]%utils_request. cbn [req_headers request].
  exists (currentUserAgent i). split; [apply currentUserAgent_rotates|].
  rewrite attemptHeaders_other, defaultHeaders_lookup, computedHeaders_lookup by done.
  by destruct (headers options !! "User-Agent").
Qed.

(** ** The session cookie in the storage *)

(** C4, as the code has it. The only write of an invocation is the one of
    the response it returns: a response that is ok and carries a non-empty
    [Set-Cookie] header has that value written under [sessionCookie], over
    any previous value, before it is returned. When the invocation rejects,
    or returns a response without such a header, it writes nothing and the
    storage is as it was; a [Set-Cookie] header on a response that is not ok
    is never stored. *)
Theorem cookie_stored_on_success P url options retries initialDelay timeout st :
  let run := Utils.fetchWithRetry P url options retries initialDelay timeout st in
  match outcome run with
  | Fulfilled r =>
      ok r = true ∧
      (∃ i rq, last (requests (trace run)) = Some (i, rq) ∧ fetch P i rq = Resolves r) ∧
      match resp_headers r !! "set-cookie" with
      | Some c =>
          if decide (c = "")
          then writes (trace run) = [] ∧ storage run = st
          else writes (trace run) = [("sessionCookie", c)] ∧
               storage run = <["sessionCookie" := c]> st
      | None => writes (trace run) = [] ∧ storage run = st
      end
  | Rejected _ => writes (trace run) = [] ∧ storage run = st
  end.
Proof.
  cbv zeta. destruct (decide (1 ≤ retries)) as [Hn|Hn].
  - destruct (utils_shape P url options retries initialDelay timeout st Hn) as [m Hm].
    pose proof (shape_last _ _ _ _ _ _ _ _ _ _ Hm) as Hlast.
    destruct (fetch P _ _) as [r|e] eqn:Hfetch; [destruct (ok r) eqn:Hok|].
    + destruct Hlast as (-> & -> & ->). split; [done|]. split.
      { eexists _, _. split; [apply (shape_last_request Hm)|done]. }
      unfold cookieStored, cookieWrites.
      destruct (resp_headers r !! "set-cookie") as [c|]; [|done].
      case_decide as Hc.
      * subst c. done.
      * apply truthy_Some in Hc. by rewrite Hc.
    + by destruct Hlast as (_ & -> & -> & ->).
    + by destruct Hlast as (_ & -> & -> & ->).
  - destruct (no_retries P url options retries initialDelay timeout st) as [-> _];
      [lia|done].
Qed.

(** ** Responses that are not ok *)

Lemma schedule_from_retry initialDelay i0 m i :
  (i0 ≤ i < i0 + m)%nat →
  ∃ t1 t2, schedule_from initialDelay i0 (S m)
           = t1 ++ [inl i; inr (initialDelay * 2 ^ Z.of_nat i); inl (S i)] ++ t2.
Proof.
  revert i0. induction m as [|m IH]; intros i0 Hi; [lia|].
  destruct (decide (i = i0)) as [->|Hne].
  - exists [], (match m with O => [] | S _ => inr (initialDelay * 2 ^ Z.of_nat (S i0))
                                              :: schedule_from initialDelay (S (S i0)) m end).
    done.
  - destruct (IH (S i0)) as (t1 & t2 & Heq); [lia|].
    exists (inl i0 :: inr (initialDelay * 2 ^ Z.of_nat i0) :: t1), t2.
    change (schedule_from initialDelay i0 (S (S m)))
      with (inl i0 :: inr (initialDelay * 2 ^ Z.of_nat i0)
            :: schedule_from initialDelay (S i0) (S m) : list (nat + Z)).
    by rewrite Heq.
Qed.

(** Every response that is not ok, 403 or not: while [i < retries - 1] the
    backoff wait and the call of the next attempt follow; on the last
    attempt the invocation rejects with the exhaustion error wrapping the
    attempt's failure. *)
Lemma utils_not_ok_response P url options retries initialDelay timeout st i rq r :
  let run := Utils.fetchWithRetry P url options retries initialDelay timeout st in
  (i, rq) ∈ requests (trace run) →
  fetch P i rq = Resolves r → ok r = false →
  if Z.of_nat i <? retries - 1
  then ∃ t1 t2, timeline (trace run)
                = t1 ++ [inl i; inr (initialDelay * 2 ^ Z.of_nat i); inl (S i)] ++ t2
  else outcome run = Rejected (exhausted retries (utils_failure P options r)).
Proof.
  intros run Hsent Hfetch Hok.
  destruct (utils_request _ _ _ _ _ _ _ _ _ Hsent) as [Hi ->].
  destruct (utils_shape P url options retries initialDelay timeout st) as [m Hm]; [lia|].
  apply (shape_request Hm) in Hsent as [Him _].
  pose proof (shape_bound _ _ _ _ _ _ _ _ _ _ Hm) as Hb.
  destruct (decide (i = m)) as [->|Hne].
  - pose proof (shape_last _ _ _ _ _ _ _ _ _ _ Hm) as Hlast. cbn [Nat.add] in Hlast.
    rewrite Hfetch, Hok in Hlast. destruct Hlast as (Hk & Hout & _).
    replace (Z.of_nat m <? retries - 1) with false by (symmetry; apply Z.ltb_ge; lia).
    done.
  - replace (Z.of_nat i <? retries - 1) with true by (symmetry; apply Z.ltb_lt; lia).
    unfold run. rewrite (shape_timeline _ _ _ _ _ _ _ _ _ _ Hm).
    apply schedule_from_retry. lia.
Qed.

(** When building the log entry cannot throw, that failure is the [HTTP]
    error with the status and the body text. *)
Lemma utils_failure_http P options r :
  DEV P = false ∨ payloadError P options = None →
  utils_failure P options r = httpError r.
Proof. unfold utils_failure. intros [->| ->]; [done|by destruct (DEV P)]. Qed.

(** ** What logging cannot change *)

(** Two runs of the same shape parameters on platforms with the same
    transport make the same attempts: which error a failed attempt is left
    with plays no part in it. *)
Lemma shape_same_attempts P P' req failure failure' final final'
    initialDelay left i m m' st run run' :
  fetch P = fetch P' →
  shape P req failure final initialDelay left i m st run →
  shape P' req failure' final' initialDelay left i m' st run' →
  m = m'.
Proof.
  intros Hfetch Hm Hm'.
  pose proof (shape_bound _ _ _ _ _ _ _ _ _ _ Hm) as Hb.
  pose proof (shape_bound _ _ _ _ _ _ _ _ _ _ Hm') as Hb'.
  pose proof (shape_last _ _ _ _ _ _ _ _ _ _ Hm) as Hlast.
  pose proof (shape_last _ _ _ _ _ _ _ _ _ _ Hm') as Hlast'.
  destruct (lt_eq_lt_dec m m') as [[Hlt|Heq]|Hlt]; [|done|].
  - destruct (shape_failed _ _ _ _ _ _ _ _ _ _ Hm' (i + m)%nat) as [e He]; [lia|].
    unfold attempt_error in He. rewrite <- Hfetch in He.
    destruct (fetch P (i + m) _) as [r|]; [destruct (ok r)|];
      [done|lia..].
  - destruct (shape_failed _ _ _ _ _ _ _ _ _ _ Hm (i + m')%nat) as [e He]; [lia|].
    unfold attempt_error in He. rewrite Hfetch in He.
    destruct (fetch P' (i + m') _) as [r|]; [destruct (ok r)|];
      [done|lia..].
Qed.

(** Whether [__DEV__] is set and whatever [JSON.parse] does, an invocation
    of [utils/fetchWithRetry.ts] sends the same requests, waits the same
    delays, writes the same cookie and ends the same way: it returns the same
    response or it rejects. Logging can only change which error it rejects
    with. *)
Lemma utils_course_without_logging P P' url options retries initialDelay timeout st :
  fetch P = fetch P' →
  let run := Utils.fetchWithRetry P url options retries initialDelay timeout st in
  let run' := Utils.fetchWithRetry P' url options retries initialDelay timeout st in
  requests (trace run) = requests (trace run') ∧
  timeline (trace run) = timeline (trace run') ∧
  writes (trace run) = writes (trace run') ∧
  storage run = storage run' ∧
  match outcome run, outcome run' with
  | Fulfilled r, Fulfilled r' => r = r'
  | Rejected _, Rejected _ => True
  | _, _ => False
  end.
Proof.
  intros Hfetch. cbv zeta. destruct (decide (1 ≤ retries)) as [Hn|Hn].
  - destruct (utils_shape P url options retries initialDelay timeout st Hn) as [m Hm].
    destruct (utils_shape P' url options retries initialDelay timeout st Hn) as [m' Hm'].
    pose proof (shape_same_attempts _ _ _ _ _ _ _ _ _ _ _ _ _ _ _ Hfetch Hm Hm') as <-.
    rewrite (shape_requests _ _ _ _ _ _ _ _ _ _ Hm),
      (shape_requests _ _ _ _ _ _ _ _ _ _ Hm'),
      (shape_timeline _ _ _ _ _ _ _ _ _ _ Hm),
      (shape_timeline _ _ _ _ _ _ _ _ _ _ Hm').
    split; [done|]. split; [done|].
    pose proof (shape_last _ _ _ _ _ _ _ _ _ _ Hm) as Hlast.
    pose proof (shape_last _ _ _ _ _ _ _ _ _ _ Hm') as Hlast'.
    rewrite <- Hfetch in Hlast'.
    destruct (fetch P _ _) as [r|e]; [destruct (ok r)|].
    + destruct Hlast as (-> & -> & ->), Hlast' as (-> & -> & ->). done.
    + destruct Hlast as (_ & -> & -> & ->), Hlast' as (_ & -> & -> & ->). done.
    + destruct Hlast as (_ & -> & -> & ->), Hlast' as (_ & -> & -> & ->). done.
  - destruct (no_retries P url options retries initialDelay timeout st) as [-> _];
      [lia|].
    destruct (no_retries P' url options retries initialDelay timeout st) as [-> _];
      [lia|done].
Qed.

(** * The claims on the scenarios *)

Lemma no_attempt_without_retries_witness :
  0 ≤ 0 ∧
  Utils.fetchWithRetry (server_down true) recipes_url post_form 0 300 10000 ∅
  = ([], ∅, Rejected (mkError "Fetch failed after 0 attempts")).
Proof.
  split; [lia|].
  destruct (no_attempt_without_retries (server_down true) recipes_url post_form
              0 300 10000 ∅) as [Hutils _]; [lia|exact Hutils].
Defined.

Lemma exhaustion_after_n_rejections_witness :
  1 ≤ 4 ∧
  outcome (Utils.fetchWithRetry (network_down false) recipes_url get 4 300 10000 ∅)
  = Rejected (mkError "Fetch failed after 4 attempts: Network request failed") ∧
  outcome (RecipeDetails.fetchWithRetry (network_down false) recipes_url get 4 300 ∅)
  = Rejected (mkError "Network request failed").
Proof.
  split; [lia|].
  destruct (exhaustion_after_n_rejections (network_down false) recipes_url get
              4 300 10000 ∅ (λ _ _, mkError "Network request failed"))
    as [[_ (rq & _ & Hutils)] [_ (rq' & _ & Hrecipe)]]; [lia|reflexivity|].
  split; [exact Hutils|exact Hrecipe].
Defined.

(** C1 fails on the copy of [recipe-details.tsx]: after two rejected calls
    the caller gets the transport's own error, which does not state the
    number of attempts. *)
Lemma recipe_details_rethrows_last_error :
  let run := RecipeDetails.fetchWithRetry (network_down false) recipes_url get 2 300 ∅ in
  (requests (trace run)).*1 = [0; 1]%nat ∧
  outcome run = Rejected (mkError "Network request failed") ∧
  outcome run
  ≠ Rejected (mkError "Fetch failed after 2 attempts: Network request failed").
Proof. vm_compute. split; [done|]. split; [done|]. discriminate. Qed.

Lemma success_after_403s_witness :
  2 ≤ 4 ∧
  outcome (Utils.fetchWithRetry (forbidden_first 3) recipes_url get 4 300 10000 ∅)
  = Fulfilled (mkResponse 200 "{}" ∅) ∧
  (requests (trace (Utils.fetchWithRetry (forbidden_first 3) recipes_url get
                      4 300 10000 ∅))).*1 = [0; 1; 2; 3]%nat.
Proof.
  split; [lia|].
  apply (success_after_403s (forbidden_first 3) recipes_url get 4 300 10000 ∅
           (mkResponse 200 "{}" ∅)).
  - lia.
  - intros i rq Hi.
    exists (mkResponse 403 "Forbidden" {["set-cookie" := "sid=blocked"]}).
    split; [|reflexivity].
    change (i < 3)%nat in Hi. destruct i as [|[|[|i]]]; [reflexivity..|lia].
  - reflexivity.
  - reflexivity.
Defined.

Lemma session_cookie_from_third_attempt_witness :
  let run := Utils.fetchWithRetry (network_down false) recipes_url get 3 300 10000
               {["sessionCookie" := "sid=stored"]} in
  let rq := request recipes_url get (Some 10000) 2 (Some "sid=stored") in
  (2%nat, rq) ∈ requests (trace run) ∧ req_headers rq !! "Cookie" = Some "sid=stored".
Proof.
  cbv zeta.
  assert ((2%nat, request recipes_url get (Some 10000) 2 (Some "sid=stored"))
          ∈ requests (trace (Utils.fetchWithRetry (network_down false) recipes_url get
                               3 300 10000 {["sessionCookie" := "sid=stored"]})))
    as Hsent.
  { apply list_elem_of_lookup_2 with 2%nat. vm_compute. reflexivity. }
  split; [exact Hsent|].
  destruct (session_cookie_from_third_attempt (network_down false) recipes_url get
              3 300 10000 {["sessionCookie" := "sid=stored"]} 2 _ (or_introl Hsent))
    as (_ & _ & Hlate).
  apply Hlate; [lia|reflexivity|discriminate].
Defined.

(** C7 fails on the [Cookie] key: on attempt 2 the stored cookie replaces
    the [Cookie] header the caller supplied. *)
Lemma caller_cookie_replaced :
  let run := Utils.fetchWithRetry (network_down false) recipes_url get_with_cookie
               3 300 10000 {["sessionCookie" := "sid=stored"]} in
  headers get_with_cookie !! "Cookie" = Some "mine=1" ∧
  ((λ '(i, rq), (i, req_headers rq !! "Cookie")) <$> requests (trace run))
  = [(0, Some "mine=1"); (1, Some "mine=1"); (2, Some "sid=stored")]%nat.
Proof. vm_compute. done. Qed.

Lemma headers_merge_then_cookie_witness :
  let run := Utils.fetchWithRetry (network_down false) recipes_url get_with_cookie
               3 300 10000 {["sessionCookie" := "sid=stored"]} in
  let rq := request recipes_url get_with_cookie (Some 10000) 2 (Some "sid=stored") in
  (2%nat, rq) ∈ requests (trace run) ∧
  req_headers rq !! "Accept" = Some "application/json" ∧
  req_headers rq !! "Cookie" = Some "sid=stored".
Proof.
  cbv zeta.
  assert ((2%nat, request recipes_url get_with_cookie (Some 10000) 2 (Some "sid=stored"))
          ∈ requests (trace (Utils.fetchWithRetry (network_down false) recipes_url
                               get_with_cookie 3 300 10000
                               {["sessionCookie" := "sid=stored"]})))
    as Hsent.
  { apply list_elem_of_lookup_2 with 2%nat. vm_compute. reflexivity. }
  split; [exact Hsent|].
  destruct (headers_merge_then_cookie (network_down false) recipes_url get_with_cookie
              3 300 10000 {["sessionCookie" := "sid=stored"]} 2 _ Hsent)
    as (Hmerged & Hcookie).
  split.
  - rewrite (Hmerged "Accept"); [reflexivity|left; discriminate].
  - rewrite Hcookie; reflexivity.
Defined.

(** C8 fails when the caller supplies a [User-Agent]: every attempt sends
    the caller's value, and attempt 1 does not send the entry 1 of the
    rotation list. *)
Lemma caller_user_agent_replaces_rotation :
  let run := Utils.fetchWithRetry (network_down false) recipes_url get_with_user_agent
               3 300 10000 ∅ in
  ((λ '(i, rq), (i, req_headers rq !! "User-Agent")) <$> requests (trace run))
  = [(0, Some "CraviiApp/1.0"); (1, Some "CraviiApp/1.0");
     (2, Some "CraviiApp/1.0")]%nat ∧
  Some "CraviiApp/1.0" ≠ userAgents !! (1 `mod` length userAgents)%nat.
Proof. vm_compute. split; [done|discriminate]. Qed.

Lemma user_agent_rotation_witness :
  let run := Utils.fetchWithRetry (network_down false) recipes_url get 4 300 10000 ∅ in
  let rq := request recipes_url get (Some 10000) 3 None in
  (3%nat, rq) ∈ requests (trace run) ∧
  req_headers rq !! "User-Agent" = userAgents !! 0%nat.
Proof.
  cbv zeta.
  assert ((3%nat, request recipes_url get (Some 10000) 3 None)
          ∈ requests (trace (Utils.fetchWithRetry (network_down false) recipes_url get
                               4 300 10000 ∅)))
    as Hsent.
  { apply list_elem_of_lookup_2 with 3%nat. vm_compute. reflexivity. }
  split; [exact Hsent|].
  destruct (user_agent_rotation (network_down false) recipes_url get
              4 300 10000 ∅ 3 _ Hsent) as (identity & Hidentity & Hsentua).
  rewrite Hsentua. change (Some identity = userAgents !! 0%nat).
  symmetry. exact Hidentity.
Defined.

(** C4 fails on a response that is not ok: the 403 of attempt 0 carries a
    [Set-Cookie] header and the attempt is retried, yet nothing is written
    and the storage has no session cookie when the invocation returns. *)
Lemma cookie_of_failed_attempt_not_stored :
  let run := Utils.fetchWithRetry (forbidden_first 1) recipes_url get 4 300 10000 ∅ in
  (∀ rq, ∃ r, fetch (forbidden_first 1) 0 rq = Resolves r ∧
              resp_headers r !! "set-cookie" = Some "sid=blocked") ∧
  timeline (trace run) = [inl 0%nat; inr 300; inl 1%nat] ∧
  writes (trace run) = [] ∧
  storage run !! "sessionCookie" = None.
Proof.
  split; [|vm_compute; done].
  intros rq. eexists. split; reflexivity.
Qed.

(** The scenarios of the specification. *)
Example scenario_set_cookie :
  storage (Utils.fetchWithRetry sets_cookie recipes_url get 4 300 10000
             {["sessionCookie" := "old"]}) !! "sessionCookie"
  = Some "sid=xyz".
Proof. vm_compute. done. Qed.

Example scenario_backoff :
  timeline (trace (Utils.fetchWithRetry (forbidden_first 3) recipes_url get
                     4 300 10000 ∅))
  = [inl 0%nat; inr 300; inl 1%nat; inr 600; inl 2%nat; inr 1200; inl 3%nat].
Proof. vm_compute. done. Qed.

(** ** The log entry of a response that is not ok *)

(** C9 fails, in [utils/fetchWithRetry.ts] under [__DEV__] and in the copy of
    [recipe-details.tsx] always. When [JSON.parse] rejects the caller's body
    with [e], building the log entry of a response that is not ok throws
    [e]; and against a transport that never answers ok, where the production
    build rejects with the exhaustion error wrapping [HTTP <status> -
    <text>] of the last response, the development build rejects with the one
    wrapping the message of [e], and the copy of [recipe-details.tsx] with
    [e] itself. *)
Theorem log_entry_throws_on_unparsable_body
    P url options retries initialDelay timeout st (answers : nat → Response) e :
  1 ≤ retries →
  (∀ i rq, fetch P i rq = Resolves (answers i)) →
  (∀ i, ok (answers i) = false) →
  DEV P = true → payloadError P options = Some e →
  let r := answers (Z.to_nat retries - 1)%nat in
  payload P options st = ([], st, Throw e) ∧
  outcome (Utils.fetchWithRetry (without_logging P) url options retries
             initialDelay timeout st)
  = Rejected (mkError ("Fetch failed after " +:+ pretty retries +:+ " attempts: "
                       +:+ "HTTP " +:+ pretty (status r) +:+ " - " +:+ text r)) ∧
  outcome (Utils.fetchWithRetry P url options retries initialDelay timeout st)
  = Rejected (mkError ("Fetch failed after " +:+ pretty retries +:+ " attempts: "
                       +:+ message e)) ∧
  outcome (RecipeDetails.fetchWithRetry P url options retries initialDelay st)
  = Rejected e.
Proof.
  intros Hn Hfetch Hok Hdev Hparse r. split; [|split; [|split]].
  - unfold payload. unfold payloadError in Hparse.
    destruct (truthy (body options)); [|done].
    destruct (JSON_parse P _); [done|]. by injection Hparse as ->.
  - destruct (utils_shape (without_logging P) url options retries initialDelay
                timeout st Hn) as [m Hm].
    destruct (shape_never_ok Hm answers Hfetch Hok) as [Hm_last ->].
    replace (0 + m)%nat with (Z.to_nat retries - 1)%nat by lia. done.
  - destruct (utils_shape P url options retries initialDelay timeout st Hn) as [m Hm].
    destruct (shape_never_ok Hm answers Hfetch Hok) as [Hm_last ->].
    unfold utils_failure. by rewrite Hdev, Hparse.
  - destruct (recipe_shape P url options retries initialDelay st Hn) as [m Hm].
    destruct (shape_never_ok Hm answers Hfetch Hok) as [Hm_last ->].
    unfold recipe_failure. by rewrite Hparse.
Qed.

Lemma log_entry_throws_on_unparsable_body_witness :
  payload (server_down true) post_form ∅
  = ([], ∅, Throw (mkError "JSON Parse error: Unexpected token")) ∧
  outcome (Utils.fetchWithRetry (without_logging (server_down true)) recipes_url
             post_form 2 300 10000 ∅)
  = Rejected (mkError "Fetch failed after 2 attempts: HTTP 500 - Server down") ∧
  outcome (Utils.fetchWithRetry (server_down true) recipes_url post_form 2 300 10000 ∅)
  = Rejected (mkError "Fetch failed after 2 attempts: JSON Parse error: Unexpected token") ∧
  outcome (RecipeDetails.fetchWithRetry (server_down true) recipes_url post_form 2 300 ∅)
  = Rejected (mkError "JSON Parse error: Unexpected token").
Proof.
  apply (log_entry_throws_on_unparsable_body (server_down true) recipes_url post_form
           2 300 10000 ∅ (λ _, mkResponse 500 "Server down" ∅)
           (mkError "JSON Parse error: Unexpected token")).
  - lia.
  - reflexivity.
  - reflexivity.
  - reflexivity.
  - reflexivity.
Defined.

(** C2 fails under [__DEV__] with a body that [JSON.parse] rejects: a
    response that is not ok is still retried after the backoff wait, but on
    the last attempt the error raised wraps the parse error [e], so that it
    carries neither the status nor the body text of the response. *)
Theorem log_entry_error_replaces_http_error
    P url options retries initialDelay timeout st i rq r e :
  let run := Utils.fetchWithRetry P url options retries initialDelay timeout st in
  DEV P = true → payloadError P options = Some e →
  (i, rq) ∈ requests (trace run) →
  fetch P i rq = Resolves r → ok r = false →
  Z.of_nat i = retries - 1 →
  outcome run
  = Rejected (mkError ("Fetch failed after " +:+ pretty retries +:+ " attempts: "
                       +:+ message e)).
Proof.
  intros run Hdev Hparse Hsent Hfetch Hok Hlast.
  pose proof (utils_not_ok_response _ _ _ _ _ _ _ _ _ _ Hsent Hfetch Hok) as Hcase.
  replace (Z.of_nat i <? retries - 1) with false in Hcase
    by (symmetry; apply Z.ltb_ge; lia).
  unfold run. rewrite Hcase. unfold utils_failure. by rewrite Hdev, Hparse.
Qed.

Lemma log_entry_error_replaces_http_error_witness :
  let run := Utils.fetchWithRetry (server_down true) recipes_url post_form
               1 300 10000 ∅ in
  fetch (server_down true) 0 (request recipes_url post_form (Some 10000) 0 None)
  = Resolves (mkResponse 500 "Server down" ∅) ∧
  outcome run
  = Rejected (mkError "Fetch failed after 1 attempts: JSON Parse error: Unexpected token").
Proof.
  cbv zeta. split; [reflexivity|].
  apply (log_entry_error_replaces_http_error (server_down true) recipes_url post_form
           1 300 10000 ∅ 0 (request recipes_url post_form (Some 10000) 0 None)
           (mkResponse 500 "Server down" ∅)
           (mkError "JSON Parse error: Unexpected token")).
  - reflexivity.
  - reflexivity.
  - apply list_elem_of_lookup_2 with 0%nat. vm_compute. reflexivity.
  - reflexivity.
  - reflexivity.
  - reflexivity.
Defined.

(** * The other copies of the helper *)

(** ** The copies that send the session cookie *)

Lemma custom_shape P url options retries initialDelay st :
  1 ≤ retries →
  ∃ m, shape P (request url options None) httpError
         id initialDelay (Z.to_nat retries) 0 m st
         (CustomOrders.fetchWithRetry P url options retries initialDelay st).
Proof.
  intros Hn.
  destruct (run_summary_shape P (request url options None)
              httpError id retries initialDelay
              (gave_up retries) (Z.to_nat retries) 0 st) as [m Hm]; [lia..|].
  exists m. eapply shape_effects; [|exact Hm].
  apply for_loop_summary, custom_attempt.
Qed.

(** A loop whose attempts are those of another with each event rewritten
    is that loop with each event rewritten. *)
Lemma for_loop_fmap (f : Event → Event) (attempt attempt' : nat → M ()) last :
  (∀ i st, attempt' i st
           = let '(tr, st', c) := attempt i st in (f <$> tr, st', c)) →
  ∀ left i st,
    for_loop attempt' last left i st
    = let '(tr, st', o) := for_loop attempt last left i st in (f <$> tr, st', o).
Proof.
  intros Hattempt left. induction left as [|left IH]; intros i st; [done|].
  cbn [for_loop]. rewrite Hattempt.
  destruct (attempt i st) as [[tr st'] [[]| |r|e]]; try done;
    rewrite IH; destruct (for_loop attempt last left (S i) st') as [[tr' st''] o];
    by rewrite fmap_app.
Qed.

Lemma prefix_append (p s : string) : String.prefix p (p +:+ s) = true.
Proof.
  induction p as [|c p IH]; [by destruct s|].
  change (String.prefix (String c p) (String c (p +:+ s)) = true).
  cbn. by destruct (Ascii.ascii_dec c c).
Qed.

Lemma demoted_failed_attempt s :
  demoted (ELog LogError ("Fetch attempt " +:+ s)) = ELog LogInfo ("Fetch attempt " +:+ s).
Proof. unfold demoted. by rewrite prefix_append. Qed.

Lemma orders_attempt_demoted P url options retries initialDelay i st :
  Orders.attempt P url options retries initialDelay i st
  = let '(tr, st', c) := RecipeDetails.attempt P url options retries initialDelay i st in
    (demoted <$> tr, st', c).
Proof.
  unfold Orders.attempt, RecipeDetails.attempt.
  cbv [mbind M_bind try_catch getItem callFetch payload console_error console_log
       emit wait continue throw return_ mret M_ret storeCookie setItem].
  repeat (branch; cbn [negb andb app fmap list_fmap]);
    by rewrite ?demoted_failed_attempt.
Qed.

(** X1. The copy of [orders.tsx] is the one of [recipe-details.tsx] with
    [console.log] for the two [console.error] entries of a failed attempt:
    on every input its trace is that of the other copy, event by event,
    with each error entry that starts [Fetch attempt] logged as
    information and nothing else changed, and it leaves the same storage
    and ends the same way. *)
Theorem orders_copy_as_recipe_details P url options retries initialDelay st :
  let orders := Orders.fetchWithRetry P url options retries initialDelay st in
  let recipe := RecipeDetails.fetchWithRetry P url options retries initialDelay st in
  trace orders = demoted <$> trace recipe ∧
  storage orders = storage recipe ∧
  outcome orders = outcome recipe.
Proof.
  cbv zeta. unfold Orders.fetchWithRetry, RecipeDetails.fetchWithRetry.
  rewrite (for_loop_fmap demoted _ _ _
             (orders_attempt_demoted P url options retries initialDelay)).
  by destruct (for_loop _ _ _ _ _) as [[tr st'] o].
Qed.

(** ** The plain copies *)

Ltac run_plain_attempt :=
  cbv [mbind mret M_bind M_ret try_catch callFetch when throw continue return_
       wait console_error console_log emit plain_attempt_summary settle];
  repeat (branch; cbn [negb andb fst snd effects omap list_omap is_log app default]);
  try reflexivity; try discriminate.

Lemma checkout_attempt P url options credentials retries delay i st :
  let '(tr, st', c) := Checkout.attempt P url options credentials retries delay i st in
  (effects tr, st', settle c)
  = plain_attempt_summary P (passedOn url options credentials) httpError
      retries delay i st.
Proof. unfold Checkout.attempt. run_plain_attempt. Qed.

Lemma restaurant_attempt P statusText url options credentials retries delay i st :
  let '(tr, st', c) :=
    RestaurantSearch.attempt P statusText url options credentials retries delay i st in
  (effects tr, st', settle c)
  = plain_attempt_summary P (passedOn url options credentials)
      (RestaurantSearch.statusError statusText) retries delay i st.
Proof. unfold RestaurantSearch.attempt. run_plain_attempt. Qed.

Section plain_shape_of_loop.
Context (P : Platform) (req : Request) (failure : Response → Error).
Context (retries delay : Z) (last : Error) (attempt : nat → M ()).
Context (Hattempt : ∀ i st,
  let '(tr, st', c) := attempt i st in
  (effects tr, st', settle c) = plain_attempt_summary P req failure retries delay i st).

Lemma plain_loop_shape left i st :
  (1 ≤ left)%nat → Z.of_nat i + Z.of_nat left = retries →
  ∃ m, plain_shape P req failure delay left i m st (for_loop attempt last left i st).
Proof using Hattempt.
  revert i st. induction left as [|left IH]; intros i st Hleft Hinv; [lia|].
  cbn [for_loop]. specialize (Hattempt i st).
  destruct (attempt i st) as [[tr st'] c]. unfold plain_attempt_summary in Hattempt.
  assert (∀ tr0 o,
    effects tr = EFetch i req :: tr0 → timeline tr0 = [] → requests tr0 = [] →
    reads tr0 = [] → writes tr0 = [] →
    match fetch P (i + 0) req with
    | Resolves r => if ok r then o = Fulfilled r
                    else 1%nat = S left ∧ o = Rejected (failure r)
    | Rejects e => 1%nat = S left ∧ o = Rejected e
    end →
    plain_shape P req failure delay (S left) i 0 st (tr, st, o)) as Hstop.
  { intros tr0 o Heff Htl Hreq Hreads Hwrites Hlast.
    split; unfold trace, storage, outcome; cbn [fst snd].
    - lia.
    - by rewrite <- requests_effects, Heff, requests_cons, Hreq.
    - by rewrite <- reads_effects, Heff, reads_cons, Hreads.
    - by rewrite <- writes_effects, Heff, writes_cons, Hwrites.
    - done.
    - by rewrite <- timeline_effects, Heff, timeline_cons, Htl.
    - intros j Hj. lia.
    - done. }
  rewrite Nat.add_0_r in Hstop.
  destruct (fetch P i req) as [r|e] eqn:Hfetch;
    [destruct (ok r) eqn:Hok|];
    [|destruct (Z.of_nat i <? retries - 1) eqn:Hmore..];
    injection Hattempt as Heff -> Hc.
  1: { (* the attempt succeeds *)
    exists O. destruct c; try discriminate. injection Hc as ->.
    by apply (Hstop []). }
  (* the attempt fails and iterations are left *)
  all: [> apply Z.ltb_lt in Hmore | | apply Z.ltb_lt in Hmore | ].
  1,3: destruct (IH (S i) st) as [m [Hb Hreq Hreads Hwrites Hst Htl Hfailed Hlast]];
    [lia..|].
  1,2: destruct (for_loop attempt last left (S i) st) as [[tr' st''] o].
  1,2: revert Hreq Hreads Hwrites Hst Htl Hlast; unfold trace, storage, outcome;
    cbn [fst snd]; intros Hreq Hreads Hwrites Hst Htl Hlast.
  1,2: exists (S m).
  1,2: destruct c; try discriminate;
    (split; unfold trace, storage, outcome; cbn [fst snd];
    [ lia
    | by rewrite requests_app, <- (requests_effects tr), Heff, Hreq
    | by rewrite reads_app, <- (reads_effects tr), Heff, Hreads
    | by rewrite writes_app, <- (writes_effects tr), Heff, Hwrites
    | done
    | rewrite timeline_app, <- (timeline_effects tr), Heff, Htl; by destruct m
    | intros j Hj; destruct (decide (j = i)) as [->|Hne];
      [ by rewrite Hfetch, ?Hok | apply Hfailed; lia ]
    | replace (i + S m)%nat with (S i + m)%nat by lia; revert Hlast;
      destruct (fetch P (S i + m) req) as [r'|e']; [destruct (ok r')|];
      intuition lia ]).
  (* the attempt fails and it was the last iteration *)
  all: apply Z.ltb_ge in Hmore.
  all: exists O; destruct c; try discriminate; injection Hc as ->.
  all: apply (Hstop []); try done; split; [lia|done].
Qed.

End plain_shape_of_loop.

(** * More on [utils/fetchWithRetry.ts] *)

Lemma append_empty_r (s : string) : s +:+ "" = s.
Proof.
  induction s as [|c s IH]; [done|].
  change (String c (s +:+ "") = String c s). by rewrite IH.
Qed.

Lemma utils_run_cases P url options retries initialDelay timeout st :
  1 ≤ retries →
  let run := Utils.fetchWithRetry P url options retries initialDelay timeout st in
  let n := Z.to_nat retries in
  ∃ k rq, (1 ≤ k ≤ n)%nat ∧
    (requests (trace run)).*1 = seq 0 k ∧
    timeline (trace run) = schedule initialDelay k ∧
    last (requests (trace run)) = Some ((k - 1)%nat, rq) ∧
    match fetch P (k - 1)%nat rq with
    | Resolves r =>
        if ok r then outcome run = Fulfilled r
        else k = n ∧ outcome run = Rejected (exhausted retries (utils_failure P options r))
    | Rejects e => k = n ∧ outcome run = Rejected (exhausted retries e)
    end.
Proof.
  intros Hn. cbv zeta.
  destruct (utils_shape P url options retries initialDelay timeout st Hn) as [m Hm].
  exists (S m), (request url options (Some timeout) m (st !! "sessionCookie")).
  pose proof (shape_bound _ _ _ _ _ _ _ _ _ _ Hm).
  split; [lia|]. split; [apply (shape_indices Hm)|].
  split; [rewrite (shape_timeline _ _ _ _ _ _ _ _ _ _ Hm); apply schedule_from_0|].
  replace (S m - 1)%nat with m by lia.
  split; [apply (shape_last_request Hm)|].
  pose proof (shape_last _ _ _ _ _ _ _ _ _ _ Hm) as Hlast. cbn [Nat.add] in Hlast.
  destruct (fetch P m _) as [r|e]; [destruct (ok r)|].
  - by destruct Hlast as (? & _).
  - destruct Hlast as (? & ? & _). split; [lia|done].
  - destruct Hlast as (? & ? & _). split; [lia|done].
Qed.

(** X2. The first response that is ok is returned, however the attempts before
    it failed (a rejected call, a 403, any other status that is not ok): the
    calls made are those of the attempts up to it, with the backoff waits
    between them. *)
Theorem first_ok_response_wins P url options retries initialDelay timeout st j r :
  let run := Utils.fetchWithRetry P url options retries initialDelay timeout st in
  (j < Z.to_nat retries)%nat →
  (∀ i rq r', (i < j)%nat → fetch P i rq = Resolves r' → ok r' = false) →
  (∀ rq, fetch P j rq = Resolves r) →
  ok r = true →
  outcome run = Fulfilled r ∧
  (requests (trace run)).*1 = seq 0 (S j) ∧
  timeline (trace run) = schedule initialDelay (S j).
Proof.
  intros run Hj Hbefore Hat Hok.
  destruct (utils_shape P url options retries initialDelay timeout st) as [m Hm]; [lia|].
  pose proof (shape_bound _ _ _ _ _ _ _ _ _ _ Hm) as Hb.
  pose proof (shape_last _ _ _ _ _ _ _ _ _ _ Hm) as Hlast. cbn [Nat.add] in Hlast.
  assert (m = j) as ->.
  { destruct (lt_eq_lt_dec m j) as [[Hlt|Heq]|Hlt]; [|done|].
    - destruct (fetch P m _) as [r'|e] eqn:Hfetch; [|lia].
      rewrite (Hbefore _ _ _ Hlt Hfetch) in Hlast. lia.
    - destruct (shape_failed _ _ _ _ _ _ _ _ _ _ Hm j) as [e He]; [lia|].
      unfold attempt_error in He. by rewrite Hat, Hok in He. }
  rewrite Hat, Hok in Hlast. destruct Hlast as (Hout & _).
  split; [done|]. split; [apply (shape_indices Hm)|].
  unfold run. rewrite (shape_timeline _ _ _ _ _ _ _ _ _ _ Hm). apply schedule_from_0.
Qed.

Lemma utils_rejection P url options retries initialDelay timeout st e :
  let run := Utils.fetchWithRetry P url options retries initialDelay timeout st in
  outcome run = Rejected e →
  (requests (trace run)).*1 = seq 0 (Z.to_nat retries) ∧
  ∃ rest, message e
          = "Fetch failed after " +:+ pretty retries +:+ " attempts" +:+ rest.
Proof.
  intros run Hout. destruct (decide (1 ≤ retries)) as [Hn|Hn].
  - destruct (utils_run_cases P url options retries initialDelay timeout st Hn)
      as (k & rq & Hk & Hidx & _ & _ & Hlast).
    fold run in Hidx, Hlast. rewrite Hidx, Hout in *.
    destruct (fetch P _ _) as [r|e']; [destruct (ok r)|]; [done|..];
      destruct Hlast as [-> [= ->]]; (split; [done|]); eexists (": " +:+ _);
      unfold exhausted; cbn [message]; reflexivity.
  - unfold run in *.
    destruct (no_retries P url options retries initialDelay timeout st) as [Heq _];
      [lia|]. rewrite Heq in *. injection Hout as <-.
    replace (Z.to_nat retries) with O by lia. split; [done|].
    exists "". unfold gave_up. cbn [message]. by rewrite !append_empty_r.
Qed.

(** X3. The helper rejects only after it has made the call of every one of its
    [retries] attempts, and the message of the error then starts with
    [Fetch failed after <retries> attempts]. *)
Theorem rejects_only_when_exhausted P url options retries initialDelay timeout st e :
  let run := Utils.fetchWithRetry P url options retries initialDelay timeout st in
  outcome run = Rejected e →
  (requests (trace run)).*1 = seq 0 (Z.to_nat retries) ∧
  ∃ rest, message e
          = "Fetch failed after " +:+ pretty retries +:+ " attempts" +:+ rest.
Proof. apply utils_rejection. Qed.

Lemma includes_prefix (p s : string) : includes (p +:+ s) p = true.
Proof.
  destruct (p +:+ s) eqn:Heq; cbn [includes];
    rewrite <- Heq, prefix_append; done.
Qed.

(** X4. Whatever made the helper reject (an HTTP 404 or 500 of a server that
    answers as much as a network failure), the recipe screen of
    [checkout.tsx] reports it as a connectivity problem: its [catch] block
    never shows [Failed to load recipe details] for an error of the
    helper. *)
Theorem every_rejection_reported_as_connectivity
    P url options retries initialDelay timeout st e name retryCount :
  let run := Utils.fetchWithRetry P url options retries initialDelay timeout st in
  outcome run = Rejected e →
  fetchRecipeDetails_errorMessage (message e) name retryCount
  = if MAX_RETRIES <=? retryCount
    then "Still no connection. Please check your internet and try again later."
    else "Internet is not stable".
Proof.
  intros run Hout.
  destruct (utils_rejection P url options retries initialDelay timeout st e
              Hout) as (_ & rest & Hmsg).
  unfold fetchRecipeDetails_errorMessage.
  replace (includes (message e) "Fetch failed after") with true;
    [by rewrite orb_true_r|].
  rewrite Hmsg. symmetry.
  apply (includes_prefix "Fetch failed after" (" " +:+ pretty retries +:+ " attempts" +:+ rest)).
Qed.

(** ** Time spent waiting *)

Lemma waited_schedule_from initialDelay i m :
  waited (schedule_from initialDelay i (S m))
  = initialDelay * 2 ^ Z.of_nat i * (2 ^ Z.of_nat m - 1).
Proof.
  revert i. induction m as [|m IH]; intros i.
  - cbn. lia.
  - change (schedule_from initialDelay i (S (S m)))
      with (inl i :: inr (initialDelay * 2 ^ Z.of_nat i)
            :: schedule_from initialDelay (S i) (S m) : list (nat + Z)).
    cbn [waited foldr]. fold (waited (schedule_from initialDelay (S i) (S m))).
    rewrite IH, !Nat2Z.inj_succ, !Z.pow_succ_r by lia. ring.
Qed.

(** X5. The waits of an invocation that made [k] calls add up to
    [initialDelay * (2^(k-1) - 1)]; with a delay that is not negative this
    is at most [initialDelay * (2^(retries-1) - 1)], 2100 ms for the
    defaults. *)
Theorem total_backoff P url options retries initialDelay timeout st :
  let run := Utils.fetchWithRetry P url options retries initialDelay timeout st in
  let k := length (requests (trace run)) in
  waited (timeline (trace run)) = initialDelay * (2 ^ Z.of_nat (k - 1) - 1) ∧
  (0 ≤ initialDelay →
   waited (timeline (trace run))
   ≤ initialDelay * (2 ^ Z.of_nat (Z.to_nat retries - 1) - 1)).
Proof.
  cbv zeta.
  assert (∃ k, (k ≤ Z.to_nat retries)%nat ∧
               length (requests (trace (Utils.fetchWithRetry P url options retries
                                          initialDelay timeout st))) = k ∧
               waited (timeline (trace (Utils.fetchWithRetry P url options retries
                                          initialDelay timeout st)))
               = initialDelay * (2 ^ Z.of_nat (k - 1) - 1)) as (k & Hk & -> & ->).
  { destruct (decide (1 ≤ retries)) as [Hn|Hn].
    - destruct (utils_shape P url options retries initialDelay timeout st Hn) as [m Hm].
      exists (S m). split; [apply (shape_bound _ _ _ _ _ _ _ _ _ _ Hm)|].
      rewrite (shape_requests _ _ _ _ _ _ _ _ _ _ Hm),
        (shape_timeline _ _ _ _ _ _ _ _ _ _ Hm), length_fmap, length_seq.
      split; [done|]. rewrite waited_schedule_from.
      replace (S m - 1)%nat with m by lia. cbn [Z.of_nat]. lia.
    - destruct (no_retries P url options retries initialDelay timeout st) as [-> _];
        [lia|]. exists O. cbn. split; [lia|]. split; [done|lia]. }
  split; [done|]. intros Hdelay.
  apply Z.mul_le_mono_nonneg_l; [done|].
  apply Z.sub_le_mono_r, Z.pow_le_mono_r; lia.
Qed.

(** ** The storage *)

(** X6. An invocation touches no key of the storage but [sessionCookie], and it
    never leaves the storage without a session cookie it had. *)
Theorem other_keys_untouched P url options retries initialDelay timeout st :
  let run := Utils.fetchWithRetry P url options retries initialDelay timeout st in
  (∀ k, k ≠ "sessionCookie" → storage run !! k = st !! k) ∧
  (is_Some (st !! "sessionCookie") → is_Some (storage run !! "sessionCookie")).
Proof.
  cbv zeta.
  assert (storage (Utils.fetchWithRetry P url options retries initialDelay timeout st) = st
          ∨ ∃ c, storage (Utils.fetchWithRetry P url options retries initialDelay
                            timeout st) = <["sessionCookie" := c]> st) as [-> | [c ->]].
  { destruct (decide (1 ≤ retries)) as [Hn|Hn].
    - destruct (utils_shape P url options retries initialDelay timeout st Hn) as [m Hm].
      pose proof (shape_last _ _ _ _ _ _ _ _ _ _ Hm) as Hlast.
      destruct (fetch P _ _) as [r|e]; [destruct (ok r)|].
      + destruct Hlast as (_ & -> & _). unfold cookieStored.
        destruct (truthy _); eauto.
      + destruct Hlast as (_ & _ & -> & _). by left.
      + destruct Hlast as (_ & _ & -> & _). by left.
    - destruct (no_retries P url options retries initialDelay timeout st) as [-> _];
        [lia|]. by left. }
  - done.
  - split.
    + intros k Hk. by rewrite lookup_insert_ne.
    + intros _. rewrite lookup_insert_eq. eauto.
Qed.

(** ** What changes from one attempt to the next *)

(** X7. All the requests of an invocation go to the caller's url with the
    caller's method and body, [credentials: 'include'] and the abort deadline
    [timeout]; from one attempt to another only the [User-Agent] and
    [Cookie] headers can differ. *)
Theorem attempts_differ_in_identity_and_cookie
    P url options retries initialDelay timeout st i rq j rq' :
  let run := Utils.fetchWithRetry P url options retries initialDelay timeout st in
  (i, rq) ∈ requests (trace run) → (j, rq') ∈ requests (trace run) →
  req_url rq = url ∧ req_method rq = method options ∧ req_body rq = body options ∧
  req_credentials rq = "include" ∧ req_abort_after rq = Some timeout ∧
  ∀ k, k ≠ "User-Agent" → k ≠ "Cookie" → req_headers rq !! k = req_headers rq' !! k.
Proof.
  intros run [_ ->]%utils_request [_ ->]%utils_request. cbn.
  do 5 (split; [done|]). intros k Hua Hcookie.
  rewrite !attemptHeaders_other, !defaultHeaders_lookup, !computedHeaders_lookup by done.
  destruct (headers options !! k); [done|]. by repeat case_decide.
Qed.

(** * The copy of [custom-orders.tsx] *)

Lemma for_loop_ext attempt attempt' last left i st :
  (∀ i st, attempt i st = attempt' i st) →
  for_loop attempt last left i st = for_loop attempt' last left i st.
Proof.
  intros Hext. revert i st. induction left as [|left IH]; intros i st; [done|].
  cbn [for_loop]. rewrite Hext.
  destruct (attempt' i st) as [[tr st'] []]; by rewrite ?IH.
Qed.

(** X8. The copy of [custom-orders.tsx] builds no diagnostic object: its whole
    run, log entries included, is the same whether [__DEV__] is set or not
    and whatever [JSON.parse] does with the caller's body. *)
Theorem custom_orders_run_ignores_logging_platform
    P P' url options retries initialDelay st :
  fetch P = fetch P' →
  CustomOrders.fetchWithRetry P url options retries initialDelay st
  = CustomOrders.fetchWithRetry P' url options retries initialDelay st.
Proof.
  intros Hfetch. unfold CustomOrders.fetchWithRetry. apply for_loop_ext.
  intros i st'. unfold CustomOrders.attempt, callFetch.
  cbv [mbind M_bind try_catch getItem]. by rewrite Hfetch.
Qed.

Lemma custom_never_ok P url options retries initialDelay st (answers : nat → Response) :
  1 ≤ retries →
  (∀ i rq, fetch P i rq = Resolves (answers i)) →
  (∀ i, ok (answers i) = false) →
  let run := CustomOrders.fetchWithRetry P url options retries initialDelay st in
  let n := Z.to_nat retries in
  (requests (trace run)).*1 = seq 0 n ∧
  timeline (trace run) = schedule initialDelay n ∧
  storage run = st ∧
  outcome run = Rejected (httpError (answers (n - 1)%nat)).
Proof.
  intros Hn Hfetch Hok. cbv zeta.
  destruct (custom_shape P url options retries initialDelay st Hn) as [m Hm].
  destruct (shape_never_ok Hm answers Hfetch Hok) as [Hm_last Hout].
  pose proof (shape_last _ _ _ _ _ _ _ _ _ _ Hm) as Hlast.
  rewrite Hfetch, Hok in Hlast. destruct Hlast as (_ & _ & Hst & _).
  rewrite (shape_indices Hm), (shape_timeline _ _ _ _ _ _ _ _ _ _ Hm), Hm_last,
    schedule_from_0, Hout, Hst.
  replace (0 + m)%nat with (Z.to_nat retries - 1)%nat by lia. done.
Qed.

(** X9. Against a transport that never answers ok, 403 or any other status, the
    copy of [custom-orders.tsx] makes the calls of all its attempts with the
    backoff waits between them and then rejects with the plain
    [HTTP <status> - <text>] error of the last response. *)
Theorem custom_orders_raises_last_http_error
    P url options retries initialDelay st (answers : nat → Response) :
  1 ≤ retries →
  (∀ i rq, fetch P i rq = Resolves (answers i)) →
  (∀ i, ok (answers i) = false) →
  let run := CustomOrders.fetchWithRetry P url options retries initialDelay st in
  let n := Z.to_nat retries in
  let r := answers (n - 1)%nat in
  (requests (trace run)).*1 = seq 0 n ∧
  timeline (trace run) = schedule initialDelay n ∧
  storage run = st ∧
  outcome run = Rejected (mkError ("HTTP " +:+ pretty (status r) +:+ " - " +:+ text r)).
Proof.
  intros Hn Hfetch Hok. by apply custom_never_ok.
Qed.

(** * The plain copies *)

Lemma checkout_shape P url options credentials retries delay st :
  1 ≤ retries →
  ∃ m, plain_shape P (passedOn url options credentials) httpError delay
         (Z.to_nat retries) 0 m st
         (Checkout.fetchWithRetry P url options credentials retries delay st).
Proof.
  intros Hn. apply (plain_loop_shape P _ httpError retries delay); [|lia..].
  apply checkout_attempt.
Qed.

Lemma restaurant_shape P statusText url options credentials retries delay st :
  1 ≤ retries →
  ∃ m, plain_shape P (passedOn url options credentials)
         (RestaurantSearch.statusError statusText) delay
         (Z.to_nat retries) 0 m st
         (RestaurantSearch.fetchWithRetry P statusText url options credentials
            retries delay st).
Proof.
  intros Hn.
  apply (plain_loop_shape P _ (RestaurantSearch.statusError statusText) retries delay);
    [|lia..].
  apply restaurant_attempt.
Qed.

(** X10. The helper of the checkout screen and the one of the restaurant search
    hand [fetch] the caller's url and options, unchanged, on every attempt;
    they neither read nor write the storage; and they wait
    [delay * 2^(i-1)] before attempt [i >= 1], as the other copies do. *)
Theorem plain_copies_pass_options_on
    P statusText url options credentials retries delay st :
  let checkout := Checkout.fetchWithRetry P url options credentials retries delay st in
  let search := RestaurantSearch.fetchWithRetry P statusText url options credentials
                  retries delay st in
  Forall (λ run : Run,
    ∃ k, (k ≤ Z.to_nat retries)%nat ∧
         requests (trace run)
         = (λ i, (i, passedOn url options credentials)) <$> seq 0 k ∧
         reads (trace run) = [] ∧ writes (trace run) = [] ∧ storage run = st ∧
         timeline (trace run) = schedule delay k)
    [checkout; search].
Proof.
  cbv zeta. destruct (decide (1 ≤ retries)) as [Hn|Hn].
  - destruct (checkout_shape P url options credentials retries delay st Hn) as [m Hm].
    destruct (restaurant_shape P statusText url options credentials retries delay st Hn)
      as [m' Hm'].
    repeat constructor.
    + exists (S m). destruct Hm as [Hb Hreq Hreads Hwrites Hst Htl _ _].
      by rewrite Htl, schedule_from_0.
    + exists (S m'). destruct Hm' as [Hb Hreq Hreads Hwrites Hst Htl _ _].
      by rewrite Htl, schedule_from_0.
  - unfold Checkout.fetchWithRetry, RestaurantSearch.fetchWithRetry.
    replace (Z.to_nat retries) with O by lia.
    repeat constructor; by exists O.
Qed.

(** X11. How the helper of the checkout screen ends. With [retries >= 1] it
    returns the first response that is ok, or, when the last of its
    [retries] attempts fails too, rejects with that attempt's own error: the
    error [fetch] rejected with, or [HTTP <status> - <text>] of the last
    response. With [retries <= 0] it calls nothing and rejects with [Fetch
    failed after <retries> attempts]. *)
Theorem checkout_helper_outcome P url options credentials retries delay st :
  let run := Checkout.fetchWithRetry P url options credentials retries delay st in
  let rq := passedOn url options credentials in
  let k := length (requests (trace run)) in
  if decide (1 ≤ retries) then
    (1 ≤ k ≤ Z.to_nat retries)%nat ∧
    (∀ i, (i < k - 1)%nat →
          match fetch P i rq with Resolves r => ok r = false | Rejects _ => True end) ∧
    match fetch P (k - 1)%nat rq with
    | Resolves r =>
        if ok r then outcome run = Fulfilled r
        else k = Z.to_nat retries ∧
             outcome run = Rejected (mkError ("HTTP " +:+ pretty (status r) +:+ " - "
                                              +:+ text r))
    | Rejects e => k = Z.to_nat retries ∧ outcome run = Rejected e
    end
  else
    k = O ∧
    outcome run = Rejected (mkError ("Fetch failed after " +:+ pretty retries
                                     +:+ " attempts")).
Proof.
  cbv zeta. case_decide as Hn.
  - destruct (checkout_shape P url options credentials retries delay st Hn) as [m Hm].
    destruct Hm as [Hb Hreq Hreads Hwrites Hst Htl Hfailed Hlast].
    rewrite Hreq, length_fmap, length_seq. replace (S m - 1)%nat with m by lia.
    split; [lia|]. split; [intros i Hi; apply Hfailed; lia|].
    cbn [Nat.add] in Hlast.
    destruct (fetch P m _) as [r|e]; [destruct (ok r)|]; [done|..];
      destruct Hlast as [? ?]; split; [lia|done| lia|done].
  - unfold Checkout.fetchWithRetry. by replace (Z.to_nat retries) with O by lia.
Qed.

(** X12. How the helper of the restaurant search ends: as the one of the
    checkout screen, except that the error of a response that is not ok is
    [HTTP <status>: <statusText>], with [Unknown error] for an empty status
    text, and that with [retries <= 0] the error is [Fetch failed after
    retries], which states no count. *)
Theorem restaurant_search_helper_outcome
    P statusText url options credentials retries delay st :
  let run := RestaurantSearch.fetchWithRetry P statusText url options credentials
               retries delay st in
  let rq := passedOn url options credentials in
  let k := length (requests (trace run)) in
  if decide (1 ≤ retries) then
    (1 ≤ k ≤ Z.to_nat retries)%nat ∧
    (∀ i, (i < k - 1)%nat →
          match fetch P i rq with Resolves r => ok r = false | Rejects _ => True end) ∧
    match fetch P (k - 1)%nat rq with
    | Resolves r =>
        if ok r then outcome run = Fulfilled r
        else k = Z.to_nat retries ∧
             outcome run
             = Rejected (mkError ("HTTP " +:+ pretty (status r) +:+ ": "
                                  +:+ (if decide (statusText r = "") then "Unknown error"
                                       else statusText r)))
    | Rejects e => k = Z.to_nat retries ∧ outcome run = Rejected e
    end
  else
    k = O ∧ outcome run = Rejected (mkError "Fetch failed after retries").
Proof.
  cbv zeta. case_decide as Hn.
  - destruct (restaurant_shape P statusText url options credentials retries delay st Hn)
      as [m Hm].
    destruct Hm as [Hb Hreq Hreads Hwrites Hst Htl Hfailed Hlast].
    rewrite Hreq, length_fmap, length_seq. replace (S m - 1)%nat with m by lia.
    split; [lia|]. split; [intros i Hi; apply Hfailed; lia|].
    cbn [Nat.add] in Hlast.
    destruct (fetch P m _) as [r|e]; [destruct (ok r)|]; [done|..];
      destruct Hlast as [? Hout]; (split; [lia|]); [|done].
    rewrite Hout. unfold RestaurantSearch.statusError. do 3 f_equal.
    case_decide as Hempty.
    + by rewrite Hempty.
    + apply truthy_Some in Hempty. by rewrite Hempty.
  - unfold RestaurantSearch.fetchWithRetry.
    by replace (Z.to_nat retries) with O by lia.
Qed.

(** * The cart and the likes *)

Lemma readList_holds {A} (parse : string → Error + list A) key st items :
  holds parse key st items →
  readList parse key st = ([EGetItem key (st !! key)], st, Normal items).
Proof.
  unfold holds, readList. cbv [mbind M_bind getItem].
  destruct (st !! key) as [s|]; [|by intros ->].
  cbn [default from_option id]. destruct (truthy (Some s)); intros Hitems;
    by rewrite Hitems.
Qed.

Lemma readList_throws {A} (parse : string → Error + list A) key st s e :
  st !! key = Some s → s ≠ "" → parse s = inl e →
  readList parse key st = ([EGetItem key (Some s)], st, Throw e).
Proof.
  intros Hs Hne%truthy_Some He. unfold readList. cbv [mbind M_bind getItem].
  by rewrite Hs, Hne; cbn [default from_option id]; rewrite He.
Qed.

Lemma existsb_hasId id cartItems :
  existsb (hasId id) cartItems = true ↔ Some id ∈ itemIds cartItems.
Proof.
  unfold itemIds. rewrite existsb_exists, list_elem_of_fmap.
  setoid_rewrite <- list_elem_of_In. unfold hasId.
  split.
  - intros (item & Hin & Hid%bool_decide_eq_true). eauto.
  - intros (item & Hid & Hin). exists item. split; [done|].
    by apply bool_decide_eq_true.
Qed.

(** X13. After [handleAddToCart] on a loaded recipe the cart has an entry with
    the recipe's id, and a cart that had no two entries with the same id
    still has none: when the id was there nothing is written, and when it
    was not, one entry with quantity 1 is appended to the entries that were
    there. *)
Theorem handleAddToCart_never_duplicates
    parse stringify st cartItems id recipe :
  holds parse "cart" st cartItems →
  NoDup (itemIds cartItems) →
  let run := RecipeDetailsCart.handleAddToCart parse stringify id (Some recipe) st in
  ∃ cartItems',
    (if existsb (hasId id) cartItems
     then answer run = Some RecipeDetailsCart.AlreadyInCart ∧
          cartItems' = cartItems ∧ after run = st ∧ writes (events run) = []
     else answer run = Some RecipeDetailsCart.Added ∧
          cartItems' = cartItems ++ [RecipeDetailsCart.newItem id recipe] ∧
          after run = <["cart" := stringify cartItems']> st) ∧
    Some id ∈ itemIds cartItems' ∧
    NoDup (itemIds cartItems').
Proof.
  intros Hcart Hnodup run. unfold run, RecipeDetailsCart.handleAddToCart.
  cbv [try_catch mbind M_bind]. rewrite (readList_holds _ _ _ _ Hcart).
  destruct (existsb (hasId id) cartItems) eqn:Hexists.
  - exists cartItems. split; [done|]. split; [|done]. by apply existsb_hasId.
  - exists (cartItems ++ [RecipeDetailsCart.newItem id recipe]).
    split; [done|].
    assert (Some id ∉ itemIds cartItems) as Hfresh.
    { rewrite <- existsb_hasId. by rewrite Hexists. }
    unfold itemIds in *. rewrite fmap_app. cbn [fmap list_fmap].
    change (props (RecipeDetailsCart.newItem id recipe) !! "id") with (Some id).
    split; [set_solver|]. apply NoDup_app. split; [done|].
    split; [|apply NoDup_singleton]. intros x Hx ->%list_elem_of_singleton. done.
Qed.

Lemma totalItems_from (start : Z) (cartItems : list CartItem) :
  foldl (λ sum item, sum + quantity item) start cartItems
  = start + totalItems cartItems.
Proof.
  unfold totalItems. revert start.
  induction cartItems as [|item cartItems IH]; intros start; cbn [foldl]; [lia|].
  rewrite IH, (IH (0 + quantity item)). lia.
Qed.

Lemma totalItems_cons item cartItems :
  totalItems (item :: cartItems) = quantity item + totalItems cartItems.
Proof. unfold totalItems at 1. cbn [foldl]. rewrite totalItems_from. lia. Qed.

Lemma totalItems_app cartItems more :
  totalItems (cartItems ++ more) = totalItems cartItems + totalItems more.
Proof.
  induction cartItems as [|item cartItems IH]; [done|].
  cbn [app]. rewrite !totalItems_cons, IH. lia.
Qed.

Lemma totalItems_oneMore i item cartItems :
  cartItems !! i = Some item →
  totalItems (alter OrderNow.oneMore i cartItems) = totalItems cartItems + 1.
Proof.
  revert i. induction cartItems as [|x cartItems IH]; intros [|i] Hi; try done.
  - injection Hi as ->. cbn [alter list_alter]. rewrite !totalItems_cons. cbn. lia.
  - cbn [alter list_alter]. rewrite !totalItems_cons.
    change (list_alter OrderNow.oneMore i cartItems)
      with (alter OrderNow.oneMore i cartItems).
    rewrite (IH i Hi). lia.
Qed.

Lemma itemIds_oneMore i cartItems :
  itemIds (alter OrderNow.oneMore i cartItems) = itemIds cartItems.
Proof.
  unfold itemIds. revert i.
  induction cartItems as [|x cartItems IH]; intros [|i]; try done.
  cbn [alter list_alter fmap list_fmap]. f_equal. apply IH.
Qed.

Lemma addToCart_run parse stringify st cartItems recipe :
  holds parse "cart" st cartItems →
  let run := OrderNow.addToCart parse stringify recipe st in
  let cartItems' := OrderNow.added recipe cartItems in
  after run = <["cart" := stringify cartItems']> st ∧
  answer run = Some (Some (totalItems cartItems + 1)) ∧
  totalItems cartItems' = totalItems cartItems + 1 ∧
  itemIds cartItems'
  = (if existsb (hasId (Recipe.id recipe)) cartItems then itemIds cartItems
     else itemIds cartItems ++ [Some (Recipe.id recipe)]) ∧
  (NoDup (itemIds cartItems) → NoDup (itemIds cartItems')).
Proof.
  intros Hcart run cartItems'.
  assert (totalItems cartItems' = totalItems cartItems + 1 ∧
          itemIds cartItems'
          = (if existsb (hasId (Recipe.id recipe)) cartItems then itemIds cartItems
             else itemIds cartItems ++ [Some (Recipe.id recipe)])) as [Htotal Hids].
  { unfold cartItems', OrderNow.added.
    destruct (list_find _ cartItems) as [[i item]|] eqn:Hfind.
    - apply list_find_Some in Hfind as (Hi & Hid & _).
      rewrite (totalItems_oneMore _ _ _ Hi), itemIds_oneMore.
      replace (existsb (hasId (Recipe.id recipe)) cartItems) with true; [done|].
      symmetry. apply existsb_exists. exists item. split; [|done].
      apply list_elem_of_In. by eapply list_elem_of_lookup_2.
    - apply list_find_None in Hfind.
      rewrite totalItems_app. unfold itemIds at 1. rewrite fmap_app.
      replace (existsb (hasId (Recipe.id recipe)) cartItems) with false.
      { split; [cbn; lia|done]. }
      symmetry. apply not_true_is_false. intros (item & Hin & Hid)%existsb_exists.
      apply list_elem_of_In in Hin.
      by apply (proj1 (Forall_forall _ _) Hfind item Hin). }
  split; [|split; [|split; [done|split; [done|]]]].
  - unfold run, OrderNow.addToCart. cbv [try_catch mbind M_bind].
    by rewrite (readList_holds _ _ _ _ Hcart).
  - unfold run, OrderNow.addToCart. cbv [try_catch mbind M_bind].
    rewrite (readList_holds _ _ _ _ Hcart). cbn. fold cartItems'.
    by rewrite Htotal.
  - intros Hnodup. rewrite Hids.
    destruct (existsb _ cartItems) eqn:Hexists; [done|].
    apply NoDup_app. split; [done|]. split; [|apply NoDup_singleton].
    intros x Hx ->%list_elem_of_singleton.
    apply existsb_hasId in Hx. congruence.
Qed.

(** X14. [addToCart] always counts exactly one more: the quantities of the cart
    it writes add up to one more than those of the cart it read, and that
    sum is the count it shows. It adds an entry only for an id the cart did
    not have, so a cart without two entries of the same id stays so. *)
Theorem addToCart_counts_one_more parse stringify st cartItems recipe :
  holds parse "cart" st cartItems →
  let run := OrderNow.addToCart parse stringify recipe st in
  let cartItems' := OrderNow.added recipe cartItems in
  after run = <["cart" := stringify cartItems']> st ∧
  answer run = Some (Some (totalItems cartItems + 1)) ∧
  totalItems cartItems' = totalItems cartItems + 1 ∧
  itemIds cartItems'
  = (if existsb (hasId (Recipe.id recipe)) cartItems then itemIds cartItems
     else itemIds cartItems ++ [Some (Recipe.id recipe)]) ∧
  (NoDup (itemIds cartItems) → NoDup (itemIds cartItems')).
Proof. apply addToCart_run. Qed.

(** X15. A stored cart that [JSON.parse] rejects is left as it is: neither
    handler writes anything, [handleAddToCart] answers with its failure
    alert and [addToCart] sets no count. *)
Theorem unreadable_cart_is_left_alone
    parse stringify st s e id recipe recipe' :
  st !! "cart" = Some s → s ≠ "" → parse s = inl e →
  let details := RecipeDetailsCart.handleAddToCart parse stringify id (Some recipe) st in
  let list := OrderNow.addToCart parse stringify recipe' st in
  answer details = Some RecipeDetailsCart.Failed ∧
  after details = st ∧ writes (events details) = [] ∧
  answer list = Some None ∧ after list = st ∧ writes (events list) = [].
Proof.
  intros Hs Hne He details list.
  unfold details, list, RecipeDetailsCart.handleAddToCart, OrderNow.addToCart.
  cbv [try_catch mbind M_bind].
  by rewrite !(readList_throws _ _ _ _ _ Hs Hne He).
Qed.

Lemma added_after_newItem recipe cartItems :
  existsb (hasId (Recipe.id recipe)) cartItems = false →
  OrderNow.added recipe
    (cartItems ++ [RecipeDetailsCart.newItem (Recipe.id recipe) recipe])
  = cartItems ++ [OrderNow.oneMore (RecipeDetailsCart.newItem (Recipe.id recipe) recipe)].
Proof.
  intros Habsent. unfold OrderNow.added.
  assert (list_find (λ item, hasId (Recipe.id recipe) item = true) cartItems = None)
    as Hnone.
  { apply list_find_None, Forall_forall. intros item Hin Hid.
    apply not_true_iff_false in Habsent. apply Habsent, existsb_exists.
    exists item. split; [by apply list_elem_of_In|done]. }
  rewrite (list_find_app_r _ _ _ Hnone). cbn [list_find].
  destruct (decide _) as [_|Hno].
  - cbn. by rewrite alter_app_r_alt, Nat.sub_diag by lia.
  - exfalso. apply Hno. unfold hasId. cbn. by rewrite bool_decide_eq_true_2.
Qed.

(** X16. For a recipe that the cart does not hold, on a platform whose
    [JSON.parse] reads back what the details screen stored: added from the
    details screen and then from the list of the order screen, the
    recipe has one entry in the cart, after the entries that were there,
    with quantity 2, and the count shown is the old total and 2. *)
Theorem details_then_list_counts_two parse stringify st cartItems recipe :
  holds parse "cart" st cartItems →
  existsb (hasId (Recipe.id recipe)) cartItems = false →
  let first := RecipeDetailsCart.newItem (Recipe.id recipe) recipe in
  let st1 := after (RecipeDetailsCart.handleAddToCart parse stringify
                      (Recipe.id recipe) (Some recipe) st) in
  holds parse "cart" st1 (cartItems ++ [first]) →
  let run := OrderNow.addToCart parse stringify recipe st1 in
  let twice := OrderNow.oneMore first in
  after run = <["cart" := stringify (cartItems ++ [twice])]> st ∧
  answer run = Some (Some (totalItems cartItems + 2)) ∧
  quantity twice = 2 ∧
  filter (λ item, hasId (Recipe.id recipe) item = true) (cartItems ++ [twice])
  = [twice].
Proof.
  intros Hcart Habsent first st1 Hback run twice.
  assert (st1 = <["cart" := stringify (cartItems ++ [first])]> st) as Hst1.
  { unfold st1, RecipeDetailsCart.handleAddToCart. cbv [try_catch mbind M_bind].
    rewrite (readList_holds _ _ _ _ Hcart). by rewrite Habsent. }
  destruct (addToCart_run parse stringify st1 (cartItems ++ [first]) recipe Hback)
    as (Hafter & Hanswer & _).
  fold run in Hafter, Hanswer. rewrite Hafter, Hanswer.
  unfold first. rewrite (added_after_newItem _ _ Habsent). fold first twice.
  split; [by rewrite Hst1, insert_insert_eq|].
  split; [rewrite totalItems_app; do 2 f_equal; cbn; lia|].
  split; [done|].
  rewrite filter_app.
  assert (filter (λ item, hasId (Recipe.id recipe) item = true) cartItems = []) as ->.
  { apply not_true_iff_false in Habsent. clear -Habsent.
    induction cartItems as [|item cartItems IH]; [done|].
    rewrite filter_cons. destruct (decide _) as [Hid|_].
    - exfalso. apply Habsent. cbn [existsb]. by rewrite Hid.
    - apply IH. intros Hex. apply Habsent. cbn [existsb]. rewrite Hex.
      apply orb_true_r. }
  cbn [app]. rewrite filter_cons_True; [done|].
  unfold hasId. cbn. by rewrite bool_decide_eq_true_2.
Qed.

(** X17. Mounted after an [addToCart], on a platform whose [JSON.parse] reads
    back what was stored, [loadCart] sets the count that [addToCart] set,
    and it writes nothing. *)
Theorem loadCart_agrees_with_addToCart parse stringify st cartItems recipe :
  holds parse "cart" st cartItems →
  let run := OrderNow.addToCart parse stringify recipe st in
  holds parse "cart" (after run) (OrderNow.added recipe cartItems) →
  let load := OrderNow.loadCart parse (after run) in
  answer load = answer run ∧ after load = after run ∧ writes (events load) = [].
Proof.
  intros Hcart run Hback load.
  destruct (addToCart_run parse stringify st cartItems recipe Hcart)
    as (_ & Hanswer & Htotal & _).
  fold run in Hanswer. rewrite Hanswer.
  unfold load, OrderNow.loadCart. cbv [try_catch mbind M_bind].
  rewrite (readList_holds _ _ _ _ Hback). cbn.
  by rewrite Htotal.
Qed.

(** ** Likes *)

Lemma liked_elem (rid : string) (likedItems : list Recipe.t) :
  existsb (λ item, String.eqb (Recipe.id item) rid) likedItems = true
  ↔ rid ∈ Recipe.id <$> likedItems.
Proof.
  rewrite existsb_exists, list_elem_of_fmap. setoid_rewrite <- list_elem_of_In.
  split.
  - intros (item & Hin & Heq%String.eqb_eq). eauto.
  - intros (item & -> & Hin). exists item. split; [done|]. apply String.eqb_refl.
Qed.

Lemma ids_filter (rid : string) (likedItems : list Recipe.t) :
  Recipe.id <$> filter (λ item, Recipe.id item ≠ rid) likedItems
  = filter (λ id, id ≠ rid) (Recipe.id <$> likedItems).
Proof.
  induction likedItems as [|item likedItems IH]; [done|].
  cbn [fmap list_fmap]. rewrite !filter_cons.
  destruct (decide (Recipe.id item ≠ rid)); cbn [fmap list_fmap]; by rewrite IH.
Qed.

Lemma filter_absent (rid : string) (ids : list string) :
  rid ∉ ids → filter (λ id, id ≠ rid) ids = ids.
Proof.
  induction ids as [|id ids IH]; [done|].
  intros [Hne Hrest]%not_elem_of_cons. rewrite filter_cons.
  destruct (decide (id ≠ rid)) as [_|Hn]; [by rewrite IH|].
  exfalso. apply Hn. by intros ->.
Qed.

Lemma filter_absent_items (rid : string) (likedItems : list Recipe.t) :
  rid ∉ Recipe.id <$> likedItems →
  filter (λ item, Recipe.id item ≠ rid) likedItems = likedItems.
Proof.
  induction likedItems as [|item likedItems IH]; [done|].
  cbn [fmap list_fmap]. intros [Hne Hrest]%not_elem_of_cons. rewrite filter_cons.
  destruct (decide (Recipe.id item ≠ rid)) as [_|Hn]; [by rewrite IH|].
  exfalso. apply Hn. by intros <-.
Qed.

Lemma toggleLike_run parse stringify st likedItems likedRecipes recipe :
  holds parse "likes" st likedItems →
  let liked :=
    existsb (λ item, String.eqb (Recipe.id item) (Recipe.id recipe)) likedItems in
  let likedItems' :=
    if liked then filter (λ item, Recipe.id item ≠ Recipe.id recipe) likedItems
    else likedItems ++ [recipe] in
  let likedRecipes' :=
    if liked then filter (λ id, id ≠ Recipe.id recipe) likedRecipes
    else likedRecipes ++ [Recipe.id recipe] in
  let run := Likes.toggleLike parse stringify likedRecipes recipe st in
  after run = <["likes" := stringify likedItems']> st ∧
  answer run = Some (Some likedRecipes').
Proof.
  intros Hlikes. cbv zeta. unfold Likes.toggleLike.
  cbv [try_catch mbind M_bind]. rewrite (readList_holds _ _ _ _ Hlikes).
  by destruct (existsb _ likedItems).
Qed.

(** X18. [toggleLike] flips whether the stored likes have the recipe's id:
    liked, every entry with that id is removed; not liked, the recipe is
    appended. The ids it sets as component state are those of the list it
    stores whenever the state matched the storage before. *)
Theorem toggleLike_flips parse stringify st likedItems likedRecipes recipe :
  holds parse "likes" st likedItems →
  let run := Likes.toggleLike parse stringify likedRecipes recipe st in
  ∃ likedItems',
    after run = <["likes" := stringify likedItems']> st ∧
    (Recipe.id recipe ∈ Recipe.id <$> likedItems'
     ↔ Recipe.id recipe ∉ Recipe.id <$> likedItems) ∧
    (∀ item, Recipe.id item ≠ Recipe.id recipe →
             item ∈ likedItems' ↔ item ∈ likedItems) ∧
    (likedRecipes = Recipe.id <$> likedItems →
     answer run = Some (Some (Recipe.id <$> likedItems'))).
Proof.
  intros Hlikes run.
  destruct (toggleLike_run parse stringify st likedItems likedRecipes recipe Hlikes)
    as [Hafter Hanswer].
  fold run in Hafter, Hanswer.
  destruct (existsb _ likedItems) eqn:Hliked.
  - apply liked_elem in Hliked.
    exists (filter (λ item, Recipe.id item ≠ Recipe.id recipe) likedItems).
    split; [done|]. split; [|split].
    + rewrite ids_filter, list_elem_of_filter. tauto.
    + intros item Hitem. rewrite list_elem_of_filter. tauto.
    + intros ->. by rewrite Hanswer, ids_filter.
  - assert (Recipe.id recipe ∉ Recipe.id <$> likedItems) as Hnot.
    { rewrite <- liked_elem. by rewrite Hliked. }
    exists (likedItems ++ [recipe]).
    split; [done|]. split; [|split].
    + rewrite fmap_app. set_solver.
    + intros item Hitem. rewrite elem_of_app, list_elem_of_singleton.
      split; [intros [?| ->]; done|by left].
    + intros ->. by rewrite Hanswer, fmap_app.
Qed.

(** X19. Liking a recipe that was not liked and toggling it again, with the
    first write read back as written, leaves the stored list and the ids on
    screen as they were. *)
Theorem toggleLike_twice parse stringify st likedItems likedRecipes recipe :
  holds parse "likes" st likedItems →
  Recipe.id recipe ∉ Recipe.id <$> likedItems →
  Recipe.id recipe ∉ likedRecipes →
  let once := Likes.toggleLike parse stringify likedRecipes recipe st in
  holds parse "likes" (after once) (likedItems ++ [recipe]) →
  let twice := Likes.toggleLike parse stringify
                 (likedRecipes ++ [Recipe.id recipe]) recipe (after once) in
  answer once = Some (Some (likedRecipes ++ [Recipe.id recipe])) ∧
  after twice = <["likes" := stringify likedItems]> st ∧
  answer twice = Some (Some likedRecipes).
Proof.
  intros Hlikes Hnot Hnot' once Hback twice.
  destruct (toggleLike_run parse stringify st likedItems likedRecipes recipe Hlikes)
    as [Hafter Hanswer].
  fold once in Hafter, Hanswer.
  destruct (toggleLike_run parse stringify (after once) (likedItems ++ [recipe])
              (likedRecipes ++ [Recipe.id recipe]) recipe Hback)
    as [Hafter2 Hanswer2].
  fold twice in Hafter2, Hanswer2.
  replace (existsb _ likedItems) with false in Hafter, Hanswer
    by (symmetry; apply not_true_is_false; by rewrite liked_elem).
  replace (existsb _ (likedItems ++ [recipe])) with true in Hafter2, Hanswer2
    by (symmetry; apply liked_elem; rewrite fmap_app; set_solver).
  split; [done|]. rewrite Hafter2, Hanswer2, Hafter, insert_insert_eq.
  rewrite !filter_app, filter_absent_items, filter_absent by done.
  rewrite !filter_cons, !filter_nil.
  destruct (decide (Recipe.id recipe ≠ Recipe.id recipe)); [done|].
  by rewrite !app_nil_r.
Qed.

(** X20. On a recipe that is liked, [toggleLike] of the dashboard and
    [unlikeRecipe] of the likes screen leave the same storage. *)
Theorem unlike_agrees_with_toggle parse stringify st likedItems likedRecipes recipe :
  holds parse "likes" st likedItems →
  Recipe.id recipe ∈ Recipe.id <$> likedItems →
  let toggled := Likes.toggleLike parse stringify likedRecipes recipe st in
  let unliked := Likes.unlikeRecipe parse stringify (Recipe.id recipe) st in
  after toggled = after unliked ∧
  answer unliked
  = Some (Some (filter (λ item, Recipe.id item ≠ Recipe.id recipe) likedItems)) ∧
  Recipe.id recipe
  ∉ Recipe.id <$> filter (λ item, Recipe.id item ≠ Recipe.id recipe) likedItems.
Proof.
  intros Hlikes Hliked toggled unliked.
  destruct (toggleLike_run parse stringify st likedItems likedRecipes recipe Hlikes)
    as [Hafter _].
  fold toggled in Hafter. rewrite Hafter.
  replace (existsb _ likedItems) with true by (symmetry; by apply liked_elem).
  unfold unliked, Likes.unlikeRecipe. cbv [try_catch mbind M_bind].
  rewrite (readList_holds _ _ _ _ Hlikes). split; [done|]. split; [done|].
  rewrite ids_filter, list_elem_of_filter. tauto.
Qed.

(** * Shuffling and suggestions *)

Lemma insert_swap_head {A} (l : list A) j x b :
  l !! j = Some b → b :: <[j := x]> l ≡ₚ x :: l.
Proof.
  revert j. induction l as [|y l IH]; intros [|j] Hj; try done.
  - injection Hj as ->. cbn. apply perm_swap.
  - cbn. rewrite (perm_swap y b), (IH j Hj). apply perm_swap.
Qed.

Lemma swap_Permutation {A} (l : list A) i j : swap l i j ≡ₚ l.
Proof.
  unfold swap. destruct (l !! i) as [a|] eqn:Hi; [|done].
  destruct (l !! j) as [b|] eqn:Hj; [|done].
  revert i j Hi Hj. induction l as [|x l IH]; intros [|i] [|j] Hi Hj; try done.
  - injection Hi as ->. injection Hj as ->. done.
  - injection Hi as ->. cbn. by apply insert_swap_head.
  - injection Hj as ->. cbn. by apply insert_swap_head.
  - cbn. f_equiv. by apply IH.
Qed.

Lemma shuffle_from_Permutation {A} pick i (l : list A) : shuffle_from pick i l ≡ₚ l.
Proof.
  revert l. induction i as [|i IH]; intros l; [done|].
  cbn [shuffle_from]. by rewrite IH, swap_Permutation.
Qed.

(** X21. What [shuffleArray] shows is a selection of the recipes it was given:
    [min 20 n] of them, none more often than the array has it (followed by
    the rest, it is a rearrangement of the array), so all of them when
    there are at most 20 and without repetition when the array has none. *)
Theorem shuffleArray_selects {A} (pick : nat → nat) (array : list A) :
  (∀ i, pick i ≤ i)%nat →
  let shown := shuffleArray pick array in
  length shown = (20 `min` length array)%nat ∧
  (∃ rest, shown ++ rest ≡ₚ array) ∧
  ((length array ≤ 20)%nat → shown ≡ₚ array) ∧
  (NoDup array → NoDup shown).
Proof.
  intros _ shown.
  pose proof (shuffle_from_Permutation pick (length array - 1) array) as Hperm.
  unfold shown, shuffleArray.
  split; [|split; [|split]].
  - by rewrite length_take, Hperm.
  - exists (drop 20 (shuffle_from pick (length array - 1) array)).
    by rewrite take_drop.
  - intros Hshort. rewrite take_ge; [done|]. by rewrite Hperm.
  - intros Hnodup. eapply sublist_NoDup; [|apply sublist_take].
    by rewrite Hperm.
Qed.

(** X22. The suggestions for a query are at most five, they are names of
    recipes of the catalogue whose name includes the query when both are
    lower-cased, in the order of the catalogue; a query that is blank once
    trimmed gets none. *)
Theorem suggestions_match trim toLowerCase allRecipes query :
  let suggested := suggestions trim toLowerCase allRecipes query in
  (length suggested ≤ 5)%nat ∧
  suggested `sublist_of` (Recipe.name <$> allRecipes) ∧
  (∀ name, name ∈ suggested →
     ∃ recipe, recipe ∈ allRecipes ∧ Recipe.name recipe = name ∧
               includes (toLowerCase name) (toLowerCase query) = true) ∧
  (trim query = "" → suggested = []).
Proof.
  intros suggested. unfold suggested, suggestions.
  destruct (String.eqb (trim query) "") eqn:Hblank.
  - split; [cbn; lia|]. split; [apply sublist_nil_l|].
    split; [by intros name ?%elem_of_nil|done].
  - split; [rewrite length_take; lia|]. split; [|split].
    + etrans; [apply sublist_take|]. apply fmap_sublist, sublist_filter.
    + intros name Hname%elem_of_take.
      destruct Hname as (i & Hname & _).
      apply list_elem_of_lookup_2, list_elem_of_fmap in Hname as (recipe & -> & Hin).
      apply list_elem_of_filter in Hin as [Hmatch Hin]. eauto.
    + intros Htrim. rewrite Htrim in Hblank. done.
Qed.

(** * [handleSubmit] of the custom order form *)

(** X23. With a blank description, or with no user id in the storage,
    [handleSubmit] shows its error modal without calling the transport or
    writing to the storage. *)
Theorem handleSubmit_validates_first
    P trim stringify json description selectedOption st :
  trim description = "" ∨ truthy (st !! "id") = false →
  let run := CustomOrdersForm.handleSubmit P trim stringify json
               description selectedOption st in
  requests (events run) = [] ∧ writes (events run) = [] ∧ after run = st ∧
  answer run
  = Some (CustomOrdersForm.ModalError
            (if String.eqb (trim description) ""
             then "Please enter a description for your custom order."
             else "Please log in to submit a custom order.")).
Proof.
  intros Hinvalid run. unfold run, CustomOrdersForm.handleSubmit.
  destruct (String.eqb (trim description) "") eqn:Hblank; [done|].
  destruct Hinvalid as [Htrim|Hid]; [by rewrite Htrim in Hblank|].
  cbv [mbind M_bind getItem]. by rewrite Hid.
Qed.

(** X24. When the server answers the four attempts of a valid submission with
    responses that are not ok, the modal shows the helper's error as it is:
    [HTTP <status> - <body text>] of the last response. *)
Theorem handleSubmit_shows_http_error
    P trim stringify json description selectedOption st (answers : nat → Response) :
  trim description ≠ "" → truthy (st !! "id") = true →
  (∀ i rq, fetch P i rq = Resolves (answers i)) →
  (∀ i, ok (answers i) = false) →
  let run := CustomOrdersForm.handleSubmit P trim stringify json
               description selectedOption st in
  (requests (events run)).*1 = [0; 1; 2; 3]%nat ∧
  after run = st ∧
  answer run
  = Some (CustomOrdersForm.ModalError
            ("HTTP " +:+ pretty (status (answers 3%nat)) +:+ " - "
             +:+ text (answers 3%nat))).
Proof.
  intros Hdesc Hid Hfetch Hok run. unfold run, CustomOrdersForm.handleSubmit.
  apply String.eqb_neq in Hdesc. rewrite Hdesc.
  cbv [mbind mret M_bind M_ret getItem try_catch console_log emit await]. rewrite Hid.
  cbn [negb].
  match goal with |- context [CustomOrders.fetchWithRetry P ?u ?o 4 300 st] =>
    destruct (custom_never_ok P u o 4 300 st answers) as (Hidx & _ & Hst & Hout);
      [lia|done|done|];
    destruct (CustomOrders.fetchWithRetry P u o 4 300 st) as [[tr st'] o']
  end.
  unfold trace, storage, outcome in *. cbn [fst snd] in *. subst st' o'.
  unfold events, after, answer. cbn [fst snd app].
  autorewrite with trace. cbn [app].
  change (truthy (Some (message (httpError (answers (Z.to_nat 4 - 1)%nat)))))
    with true.
  done.
Qed.

(** * [fetchRecipeDetails] of the recipe screen *)

Lemma recipe_storage P url options retries initialDelay st k :
  k ≠ "sessionCookie" →
  storage (RecipeDetails.fetchWithRetry P url options retries initialDelay st) !! k
  = st !! k.
Proof.
  intros Hk. destruct (decide (1 ≤ retries)) as [Hn|Hn].
  - destruct (recipe_shape P url options retries initialDelay st Hn) as [m Hm].
    pose proof (shape_last _ _ _ _ _ _ _ _ _ _ Hm) as Hlast.
    destruct (fetch P _ _) as [r|e]; [destruct (ok r)|].
    + destruct Hlast as (_ & -> & _). unfold cookieStored.
      destruct (truthy _); [by rewrite lookup_insert_ne|done].
    + by destruct Hlast as (_ & _ & -> & _).
    + by destruct Hlast as (_ & _ & -> & _).
  - unfold RecipeDetails.fetchWithRetry. by replace (Z.to_nat retries) with O by lia.
Qed.

Lemma keeps_ret k {A} (a : A) : keeps k (mret a).
Proof. by intros st. Qed.

Lemma keeps_bind k {A B} (m : M A) (f : A → M B) :
  keeps k m → (∀ a, keeps k (f a)) → keeps k (m ≫= f).
Proof.
  intros Hm Hf st. specialize (Hm st). unfold mbind, M_bind, after in *.
  destruct (m st) as [[tr st'] [a| |r|e]]; cbn in *; try done.
  specialize (Hf a st'). unfold after in Hf.
  destruct (f a st') as [[tr' st''] c]; cbn in *. congruence.
Qed.

Lemma keeps_throw k {A} e : keeps k (throw (A:=A) e).
Proof. by intros st. Qed.

Lemma keeps_emit k e : keeps k (emit e).
Proof. by intros st. Qed.

Lemma keeps_json k {A} (parse : Response → Error + A) response :
  keeps k (RecipeDetailsScreen.json parse response).
Proof. intros st. unfold RecipeDetailsScreen.json. by destruct (parse response). Qed.

Lemma keeps_await_recipe k P url options retries initialDelay :
  k ≠ "sessionCookie" →
  keeps k (await (RecipeDetails.fetchWithRetry P url options retries initialDelay)).
Proof.
  intros Hk st.
  rewrite <- (recipe_storage P url options retries initialDelay st k Hk).
  unfold await, after, storage. by destruct (RecipeDetails.fetchWithRetry _ _ _ _ _ _) as [[tr st'] []].
Qed.

(** The user's location is stored in every branch, and no error of the
    user request leaves the block. *)
Lemma storeUserLocation_run P json_user st :
  let userId := st !! "id" in
  let user := RecipeDetails.fetchWithRetry P
                (RecipeDetailsScreen.user_url (default "" userId))
                RecipeDetailsScreen.get 4 300 st in
  let served :=
    match outcome user with
    | Fulfilled response =>
        match json_user response with
        | inr result =>
            if RecipeDetailsScreen.user_success result
            then default None (RecipeDetailsScreen.user_data result) else None
        | inl _ => None
        end
    | Rejected _ => None
    end in
  let location :=
    if truthy userId && truthy served then default "" served else "N.Y Bronx" in
  ∃ tr, RecipeDetailsScreen.storeUserLocation P json_user st
        = (tr, <["userLocation" := location]>
                 (if truthy userId then storage user else st), Normal ()).
Proof.
  cbv zeta. unfold RecipeDetailsScreen.storeUserLocation.
  cbv [mbind M_bind getItem try_catch await RecipeDetailsScreen.json console_log
       console_error RecipeDetailsScreen.console_warn emit throw setItem].
  destruct (truthy (st !! "id")); cbn [andb]; [|by eexists].
  destruct (RecipeDetails.fetchWithRetry _ _ _ _ _ _) as [[tr st'] [response|e]];
    cbn [outcome storage fst snd]; [|by eexists].
  destruct (json_user response) as [e|result]; [by eexists|].
  destruct (RecipeDetailsScreen.user_success result); [|by eexists].
  destruct (RecipeDetailsScreen.user_data result) as [[l|]|];
    cbn [default from_option truthy id]; [|by eexists..].
  destruct (negb _); by eexists.
Qed.

Lemma loadRecipe_keeps P json_recipe json_restaurant id k :
  k ≠ "sessionCookie" →
  keeps k (RecipeDetailsScreen.loadRecipe P json_recipe json_restaurant id).
Proof.
  intros Hk. unfold RecipeDetailsScreen.loadRecipe.
  repeat first
    [ apply keeps_bind; [|intros ?]
    | by apply keeps_await_recipe
    | apply keeps_json
    | apply keeps_emit
    | apply keeps_ret
    | apply keeps_throw
    | match goal with
      | |- keeps _ (if ?b then _ else _) => destruct b
      | |- keeps _ (match ?o with Some _ => _ | None => _ end) => destruct o
      end ].
Qed.

(** X25. Whatever the transport and the server do afterwards,
    [fetchRecipeDetails] leaves under [userLocation] the location the
    server gave for the user: the [data.location] of the answer to the user
    request, when a user id is stored, the request is answered, the answer
    parses and reads [success], and the location is not empty. In every
    other case it leaves [N.Y Bronx]. *)
Theorem fetchRecipeDetails_sets_location
    P json_user json_recipe json_restaurant id st :
  let userId := st !! "id" in
  let user := RecipeDetails.fetchWithRetry P
                (RecipeDetailsScreen.user_url (default "" userId))
                RecipeDetailsScreen.get 4 300 st in
  let served :=
    match outcome user with
    | Fulfilled response =>
        match json_user response with
        | inr result =>
            if RecipeDetailsScreen.user_success result
            then default None (RecipeDetailsScreen.user_data result) else None
        | inl _ => None
        end
    | Rejected _ => None
    end in
  after (RecipeDetailsScreen.fetchRecipeDetails P json_user json_recipe
           json_restaurant id st) !! "userLocation"
  = Some (if truthy userId && truthy served then default "" served
          else "N.Y Bronx").
Proof.
  cbv zeta.
  destruct (storeUserLocation_run P json_user st) as [tr Hblock].
  cbv zeta in Hblock.
  unfold RecipeDetailsScreen.fetchRecipeDetails, try_catch.
  unfold mbind at 1, M_bind at 1. rewrite Hblock.
  match goal with
  | |- context [RecipeDetailsScreen.loadRecipe _ _ _ _ ?st1] =>
      pose proof (loadRecipe_keeps P json_recipe json_restaurant id "userLocation"
                    ltac:(done) st1) as Hkept;
      destruct (RecipeDetailsScreen.loadRecipe P json_recipe json_restaurant id st1)
        as [[tr' st2] [alert| |r|e]]
  end; unfold after in *; cbv [mbind M_bind console_error emit mret M_ret];
    cbn [fst snd] in *; by rewrite Hkept, lookup_insert_eq.
Qed.

(** X26. [fetchRecipeDetails] never rejects, and no failure of the user request
    raises an alert: the alert is decided by the recipe request, made on
    the storage the user's location was stored in, and by the restaurant
    request after it. A recipe request that is rejected, or whose answer
    does not parse or reads [success] without [data], raises the
    connection alert; an answer that does not read [success] raises the
    other alert; an answer with [data] and no restaurant id raises none;
    with a restaurant id, the connection alert is raised when the
    restaurant request is rejected or its answer does not parse or reads
    [success] without [data], and no alert otherwise. *)
Theorem fetchRecipeDetails_alerts
    P json_user json_recipe json_restaurant id st :
  let st1 := after (RecipeDetailsScreen.storeUserLocation P json_user st) in
  let recipe := RecipeDetails.fetchWithRetry P (RecipeDetailsScreen.recipe_url id)
                  RecipeDetailsScreen.get 4 300 st1 in
  let restaurant restaurantId :=
    RecipeDetails.fetchWithRetry P (RecipeDetailsScreen.restaurant_url restaurantId)
      RecipeDetailsScreen.get 4 300 (storage recipe) in
  answer (RecipeDetailsScreen.fetchRecipeDetails P json_user json_recipe
            json_restaurant id st)
  = Some
      match outcome recipe with
      | Rejected _ => Some RecipeDetailsScreen.checkConnection
      | Fulfilled response =>
          match json_recipe response with
          | inl _ => Some RecipeDetailsScreen.checkConnection
          | inr result =>
              if RecipeDetailsScreen.recipe_success result then
                match RecipeDetailsScreen.recipe_data result with
                | None => Some RecipeDetailsScreen.checkConnection
                | Some None => None
                | Some (Some restaurantId) =>
                    if String.eqb restaurantId "" then None
                    else
                      match outcome (restaurant restaurantId) with
                      | Rejected _ => Some RecipeDetailsScreen.checkConnection
                      | Fulfilled response' =>
                          match json_restaurant response' with
                          | inl _ => Some RecipeDetailsScreen.checkConnection
                          | inr result' =>
                              if RecipeDetailsScreen.restaurant_success result'
                              then match RecipeDetailsScreen.restaurant_data result' with
                                   | Some _ => None
                                   | None => Some RecipeDetailsScreen.checkConnection
                                   end
                              else None
                          end
                      end
                end
              else Some RecipeDetailsScreen.tryAgain
          end
      end.
Proof.
  cbv zeta.
  destruct (storeUserLocation_run P json_user st) as [tr Hblock].
  cbv zeta in Hblock.
  unfold RecipeDetailsScreen.fetchRecipeDetails, try_catch.
  unfold mbind at 1, M_bind at 1. rewrite Hblock.
  unfold after. cbn [fst snd].
  match goal with |- context [<["userLocation" := ?l]> ?s] =>
    generalize (<["userLocation" := l]> s)
  end.
  clear Hblock. intros st1. unfold RecipeDetailsScreen.loadRecipe.
  cbv [mbind M_bind await RecipeDetailsScreen.json console_error emit throw mret
       M_ret].
  destruct (RecipeDetails.fetchWithRetry _ _ _ _ _ _) as [[tr1 st2] [response|e]];
    cbn [outcome storage fst snd]; [|done].
  destruct (json_recipe response) as [e|result]; [done|].
  destruct (RecipeDetailsScreen.recipe_success result); [|done].
  destruct (RecipeDetailsScreen.recipe_data result) as [[restaurantId|]|];
    cbn [truthy default from_option Datatypes.id]; [|done..].
  destruct (String.eqb restaurantId ""); cbn [negb]; [done|].
  destruct (RecipeDetails.fetchWithRetry _ _ _ _ _ _) as [[tr2 st3] [response'|e]];
    cbn [outcome storage fst snd]; [|done].
  destruct (json_restaurant response') as [e|result']; [done|].
  destruct (RecipeDetailsScreen.restaurant_success result'); [|done].
  by destruct (RecipeDetailsScreen.restaurant_data result').
Qed.

(** * The further properties on the scenarios *)

Lemma first_ok_response_wins_witness :
  let run := Utils.fetchWithRetry (forbidden_first 3) recipes_url get 4 300 10000 ∅ in
  outcome run = Fulfilled (mkResponse 200 "{}" ∅) ∧
  (requests (trace run)).*1 = [0; 1; 2; 3]%nat ∧
  timeline (trace run) = schedule 300 4.
Proof.
  apply (first_ok_response_wins (forbidden_first 3) recipes_url get 4 300 10000 ∅
           3 (mkResponse 200 "{}" ∅)).
  - vm_compute. lia.
  - intros i rq r' Hi. destruct i as [|[|[|i]]]; [..|lia]; by intros [= <-].
  - reflexivity.
  - reflexivity.
Defined.

Lemma rejects_only_when_exhausted_witness :
  let run := Utils.fetchWithRetry (network_down false) recipes_url get 4 300 10000 ∅ in
  outcome run
  = Rejected (mkError "Fetch failed after 4 attempts: Network request failed") ∧
  (requests (trace run)).*1 = [0; 1; 2; 3]%nat.
Proof.
  cbv zeta. split; [reflexivity|].
  apply (rejects_only_when_exhausted (network_down false) recipes_url get
           4 300 10000 ∅
           (mkError "Fetch failed after 4 attempts: Network request failed")).
  reflexivity.
Defined.

Lemma every_rejection_reported_as_connectivity_witness :
  outcome (Utils.fetchWithRetry not_found recipes_url get 4 300 10000 ∅)
  = Rejected (mkError "Fetch failed after 4 attempts: HTTP 404 - Not found") ∧
  fetchRecipeDetails_errorMessage
    "Fetch failed after 4 attempts: HTTP 404 - Not found" "Error" 0
  = "Internet is not stable".
Proof.
  split; [reflexivity|].
  apply (every_rejection_reported_as_connectivity not_found recipes_url get
           4 300 10000 ∅
           (mkError "Fetch failed after 4 attempts: HTTP 404 - Not found")
           "Error" 0).
  reflexivity.
Defined.

Lemma attempts_differ_in_identity_and_cookie_witness :
  let run := Utils.fetchWithRetry (network_down false) recipes_url get 3 300 10000
               {["sessionCookie" := "sid=stored"]} in
  let rq := request recipes_url get (Some 10000) 0 None in
  let rq' := request recipes_url get (Some 10000) 2 (Some "sid=stored") in
  (0%nat, rq) ∈ requests (trace run) ∧ (2%nat, rq') ∈ requests (trace run) ∧
  req_headers rq !! "Accept" = req_headers rq' !! "Accept".
Proof.
  cbv zeta.
  assert ((0%nat, request recipes_url get (Some 10000) 0 None)
          ∈ requests (trace (Utils.fetchWithRetry (network_down false) recipes_url get
                               3 300 10000 {["sessionCookie" := "sid=stored"]})))
    as Hfirst.
  { apply list_elem_of_lookup_2 with 0%nat. vm_compute. reflexivity. }
  assert ((2%nat, request recipes_url get (Some 10000) 2 (Some "sid=stored"))
          ∈ requests (trace (Utils.fetchWithRetry (network_down false) recipes_url get
                               3 300 10000 {["sessionCookie" := "sid=stored"]})))
    as Hthird.
  { apply list_elem_of_lookup_2 with 2%nat. vm_compute. reflexivity. }
  split; [exact Hfirst|]. split; [exact Hthird|].
  destruct (attempts_differ_in_identity_and_cookie (network_down false) recipes_url
              get 3 300 10000 {["sessionCookie" := "sid=stored"]} _ _ _ _
              Hfirst Hthird) as (_ & _ & _ & _ & _ & Hsame).
  apply Hsame; discriminate.
Defined.

Lemma custom_orders_run_ignores_logging_platform_witness :
  fetch (server_down true) = fetch (server_down false) ∧
  CustomOrders.fetchWithRetry (server_down true) recipes_url post_form 2 300 ∅
  = CustomOrders.fetchWithRetry (server_down false) recipes_url post_form 2 300 ∅.
Proof.
  split; [reflexivity|].
  apply (custom_orders_run_ignores_logging_platform (server_down true)
           (server_down false) recipes_url post_form 2 300 ∅).
  reflexivity.
Defined.

Lemma custom_orders_raises_last_http_error_witness :
  let run := CustomOrders.fetchWithRetry not_found recipes_url post_form 4 300 ∅ in
  1 ≤ 4 ∧
  (requests (trace run)).*1 = [0; 1; 2; 3]%nat ∧
  timeline (trace run) = schedule 300 4 ∧
  storage run = ∅ ∧
  outcome run = Rejected (mkError "HTTP 404 - Not found").
Proof.
  cbv zeta. split; [lia|].
  apply (custom_orders_raises_last_http_error not_found recipes_url post_form
           4 300 ∅ (λ _, mkResponse 404 "Not found" ∅)).
  - lia.
  - reflexivity.
  - reflexivity.
Defined.

Lemma handleAddToCart_never_duplicates_witness :
  let parse := reads_back cart_text carts in
  let first := RecipeDetailsCart.newItem "7" jollof in
  let st : Storage := {["cart" := cart_text [first]]} in
  holds parse "cart" st [first] ∧
  ∃ cartItems',
    (answer (RecipeDetailsCart.handleAddToCart parse cart_text "7" (Some jollof) st)
     = Some RecipeDetailsCart.AlreadyInCart ∧
     cartItems' = [first] ∧
     after (RecipeDetailsCart.handleAddToCart parse cart_text "7" (Some jollof) st)
     = st ∧
     writes (events (RecipeDetailsCart.handleAddToCart parse cart_text "7"
                       (Some jollof) st)) = []) ∧
    Some "7" ∈ itemIds cartItems' ∧
    NoDup (itemIds cartItems').
Proof.
  cbv zeta. split; [reflexivity|].
  apply (handleAddToCart_never_duplicates (reads_back cart_text carts) cart_text
           {["cart" := cart_text [RecipeDetailsCart.newItem "7" jollof]]}
           [RecipeDetailsCart.newItem "7" jollof] "7" jollof).
  - reflexivity.
  - apply NoDup_singleton.
Defined.

Lemma addToCart_counts_one_more_witness :
  let parse := reads_back cart_text carts in
  let first := RecipeDetailsCart.newItem "7" jollof in
  let st : Storage := {["cart" := cart_text [first]]} in
  holds parse "cart" st [first] ∧
  after (OrderNow.addToCart parse cart_text jollof st)
  = <["cart" := cart_text [OrderNow.oneMore first]]> st ∧
  answer (OrderNow.addToCart parse cart_text jollof st) = Some (Some 2).
Proof.
  cbv zeta. split; [reflexivity|].
  destruct (addToCart_counts_one_more (reads_back cart_text carts) cart_text
              {["cart" := cart_text [RecipeDetailsCart.newItem "7" jollof]]}
              [RecipeDetailsCart.newItem "7" jollof] jollof)
    as (Hafter & Hanswer & _); [reflexivity|].
  split; [exact Hafter|exact Hanswer].
Defined.

Lemma unreadable_cart_is_left_alone_witness :
  let parse := reads_back cart_text carts in
  let st : Storage := {["cart" := "undefined"]} in
  parse "undefined" = inl (mkError "JSON Parse error: Unexpected token") ∧
  answer (RecipeDetailsCart.handleAddToCart parse cart_text "7" (Some jollof) st)
  = Some RecipeDetailsCart.Failed ∧
  after (OrderNow.addToCart parse cart_text jollof st) = st.
Proof.
  cbv zeta. split; [reflexivity|].
  destruct (unreadable_cart_is_left_alone (reads_back cart_text carts) cart_text
              {["cart" := "undefined"]} "undefined"
              (mkError "JSON Parse error: Unexpected token") "7" jollof jollof)
    as (Hdetails & _ & _ & _ & Hlist & _); [reflexivity|discriminate|reflexivity|].
  split; [exact Hdetails|exact Hlist].
Defined.

Lemma details_then_list_counts_two_witness :
  let parse := reads_back cart_text carts in
  let first := RecipeDetailsCart.newItem "7" jollof in
  let other := RecipeDetailsCart.newItem "9" suya in
  let st : Storage := {["cart" := cart_text [other]]} in
  let st1 := after (RecipeDetailsCart.handleAddToCart parse cart_text "7"
                      (Some jollof) st) in
  holds parse "cart" st [other] ∧ existsb (hasId "7") [other] = false ∧
  holds parse "cart" st1 [other; first] ∧
  after (OrderNow.addToCart parse cart_text jollof st1)
  = {["cart" := cart_text [other; OrderNow.oneMore first]]} ∧
  answer (OrderNow.addToCart parse cart_text jollof st1) = Some (Some 3).
Proof.
  cbv zeta. split; [reflexivity|]. split; [reflexivity|]. split; [reflexivity|].
  destruct (details_then_list_counts_two (reads_back cart_text carts) cart_text
              {["cart" := cart_text [RecipeDetailsCart.newItem "9" suya]]}
              [RecipeDetailsCart.newItem "9" suya] jollof)
    as (Hafter & Hanswer & _); [reflexivity..|].
  split; [etransitivity; [exact Hafter|reflexivity]|exact Hanswer].
Defined.

Lemma toggleLike_flips_witness :
  let parse := reads_back likes_text likes_lists in
  holds parse "likes" ∅ [] ∧
  ∃ likedItems',
    after (Likes.toggleLike parse likes_text [] jollof ∅)
    = {["likes" := likes_text likedItems']} ∧
    "7" ∈ Recipe.id <$> likedItems'.
Proof.
  cbv zeta. split; [reflexivity|].
  destruct (toggleLike_flips (reads_back likes_text likes_lists) likes_text ∅ [] []
              jollof) as (likedItems' & Hafter & Hflips & _); [reflexivity|].
  exists likedItems'. split; [exact Hafter|].
  apply Hflips. apply not_elem_of_nil.
Defined.

Lemma toggleLike_twice_witness :
  let parse := reads_back likes_text likes_lists in
  let once := Likes.toggleLike parse likes_text [] jollof ∅ in
  holds parse "likes" ∅ [] ∧ holds parse "likes" (after once) [jollof] ∧
  answer once = Some (Some ["7"]) ∧
  after (Likes.toggleLike parse likes_text ["7"] jollof (after once))
  = {["likes" := likes_text []]} ∧
  answer (Likes.toggleLike parse likes_text ["7"] jollof (after once))
  = Some (Some []).
Proof.
  cbv zeta. split; [reflexivity|]. split; [reflexivity|].
  apply (toggleLike_twice (reads_back likes_text likes_lists) likes_text ∅ [] []
           jollof).
  - reflexivity.
  - apply not_elem_of_nil.
  - apply not_elem_of_nil.
  - reflexivity.
Defined.

Lemma unlike_agrees_with_toggle_witness :
  let parse := reads_back likes_text likes_lists in
  let st : Storage := {["likes" := likes_text [jollof]]} in
  holds parse "likes" st [jollof] ∧
  after (Likes.toggleLike parse likes_text ["7"] jollof st)
  = after (Likes.unlikeRecipe parse likes_text "7" st) ∧
  answer (Likes.unlikeRecipe parse likes_text "7" st) = Some (Some []).
Proof.
  cbv zeta. split; [reflexivity|].
  destruct (unlike_agrees_with_toggle (reads_back likes_text likes_lists) likes_text
              {["likes" := likes_text [jollof]]} [jollof] ["7"] jollof)
    as (Hsame & Hanswer & _); [reflexivity|apply list_elem_of_here|].
  split; [exact Hsame|exact Hanswer].
Defined.

Lemma shuffleArray_selects_witness :
  let shown := shuffleArray (λ i, i `div` 2)%nat ["a"; "b"; "c"] in
  length shown = 3%nat ∧ shown ≡ₚ ["a"; "b"; "c"] ∧ NoDup shown.
Proof.
  cbv zeta.
  destruct (shuffleArray_selects (λ i, i `div` 2)%nat ["a"; "b"; "c"])
    as (Hlength & _ & Hall & Hdistinct).
  - intros i. apply Nat.Div0.div_le_upper_bound. lia.
  - split; [exact Hlength|]. split; [apply Hall; cbn; lia|].
    apply Hdistinct. apply (bool_decide_unpack _). vm_compute. exact I.
Defined.

Lemma handleSubmit_validates_first_witness :
  let run := CustomOrdersForm.handleSubmit not_found trim_stub request_text json_stub
               "Two wraps of suya" "all" ∅ in
  requests (events run) = [] ∧
  answer run
  = Some (CustomOrdersForm.ModalError "Please log in to submit a custom order.").
Proof.
  cbv zeta.
  destruct (handleSubmit_validates_first not_found trim_stub request_text json_stub
              "Two wraps of suya" "all" ∅) as (Hnone & _ & _ & Hanswer).
  - right. reflexivity.
  - split; [exact Hnone|exact Hanswer].
Defined.

Lemma handleSubmit_shows_http_error_witness :
  let run := CustomOrdersForm.handleSubmit not_found trim_stub request_text json_stub
               "Two wraps of suya" "all" {["id" := "12"]} in
  (requests (events run)).*1 = [0; 1; 2; 3]%nat ∧
  answer run = Some (CustomOrdersForm.ModalError "HTTP 404 - Not found").
Proof.
  cbv zeta.
  destruct (handleSubmit_shows_http_error not_found trim_stub request_text json_stub
              "Two wraps of suya" "all" {["id" := "12"]}
              (λ _, mkResponse 404 "Not found" ∅))
    as (Hsent & _ & Hanswer); [discriminate|reflexivity|reflexivity|reflexivity|].
  split; [exact Hsent|exact Hanswer].
Defined.

Lemma loadCart_agrees_with_addToCart_witness :
  let parse := reads_back cart_text carts in
  let first := RecipeDetailsCart.newItem "7" jollof in
  let st : Storage := {["cart" := cart_text [first]]} in
  let run := OrderNow.addToCart parse cart_text jollof st in
  holds parse "cart" st [first] ∧
  holds parse "cart" (after run) (OrderNow.added jollof [first]) ∧
  answer (OrderNow.loadCart parse (after run)) = Some (Some 2).
Proof.
  cbv zeta. split; [reflexivity|]. split; [reflexivity|].
  destruct (loadCart_agrees_with_addToCart (reads_back cart_text carts) cart_text
              {["cart" := cart_text [RecipeDetailsCart.newItem "7" jollof]]}
              [RecipeDetailsCart.newItem "7" jollof] jollof)
    as (Hanswer & _); [reflexivity|reflexivity|].
  rewrite Hanswer. reflexivity.
Defined.
